(** * Aircraft structure optimisation: the [aso] evaluation core

    A shallow embedding of [src/aso/optimisation_problem.py] and
    [src/aso/optimisation_result.py] (constrained-optimisation project).

    - Python objects that are mutated or copied (the problem instance, the
      design vector [x], its working copy [x_local]) live in an explicit
      store; methods are state transformers over that store.
    - A Python exception is the [Raise] outcome of a computation; the store
      reached when it was raised is kept.
    - Floating-point scalars are kept abstract behind the [Scalar] interface:
      a theorem proved for every [Scalar] holds for IEEE binary64 (instance
      [binary64]) as well as for exact arithmetic (instance [exact]).  Facts
      that need an algebraic law name it as a hypothesis.
    - An array that a callable hands back is held by value when the callable
      made it, and by address when it is the callable's own argument, so
      that an in-place update of it reaches the store. *)

From Stdlib Require Import ZArith QArith Qcanon String.
From Stdlib Require Import Floats.PrimFloat.
From stdpp Require Import base option list gmap.

Set Default Proof Using "Type".
Local Open Scope Z_scope.

(** ** Python runtime: exceptions, outcomes, sequence indexing *)

Module Py.

(** The exceptions the modelled code can raise.  [Exception] carries its
    message, as in [raise Exception("Unconstrained problem.")].
    [DanglingReference] is the outcome of reading an address that holds no
    array; no Python program reaches it, a name always refers to an object. *)
Inductive exn : Type :=
| Exception (msg : string)
| IndexError
| ValueError
| ZeroDivisionError
| FrozenInstanceError
| DanglingReference.

Inductive result (A : Type) : Type :=
| Ok (a : A)
| Raise (e : exn).
Arguments Ok {A} a.
Arguments Raise {A} e.

Definition is_ok {A} (r : result A) : bool :=
  match r with Ok _ => true | Raise _ => false end.

(** [seq[i]] for a Python int [i]: a negative index counts from the end,
    anything outside [-len, len) is out of range. *)
Definition norm_index (len : nat) (i : Z) : option nat :=
  if (0 <=? i) && (i <? Z.of_nat len) then Some (Z.to_nat i)
  else if (i <? 0) && (- Z.of_nat len <=? i) then Some (Z.to_nat (Z.of_nat len + i))
  else None.

Definition getitem {A} (l : list A) (i : Z) : option A :=
  k ← norm_index (length l) i; l !! k.

(** [seq[i]] together with the position it resolves to. *)
Definition resolve {A} (l : list A) (i : Z) : option (nat * A) :=
  k ← norm_index (length l) i; a ← l !! k; Some (k, a).

(** [o or []] for an optional list. *)
Definition or_empty {A} (o : option (list A)) : list A :=
  match o with Some l => l | None => [] end.

(** [enumerate(l)] *)
Definition enumerate {A} (l : list A) : list (nat * A) :=
  imap (fun k a => (k, a)) l.

End Py.
Export Py.

(** ** Scalars *)

(** The float operations the code uses, the two literals it contains, and the
  unspecified content of a freshly allocated [np.empty] cell.

  [sdiv] is the quotient itself, as numpy computes it between arrays, where
  a zero divisor gives [inf] or [nan].  Between two scalars Python's [/]
  first tests the divisor: [sis_zero b] is [b == 0], and [schecked] tells
  whether a zero divisor raises [ZeroDivisionError].  It does between Python
  floats, which is what the callables are annotated to return and what the
  step is; it does not when a [numpy.float64] takes part.  The last field
  says that twice the default step [1e-6] is not zero. *)
Class Scalar (F : Type) : Type := {
sadd : F -> F -> F;
ssub : F -> F -> F;
smul : F -> F -> F;
sdiv : F -> F -> F;
stwo : F;
sstep : F;
suninit : F;
sis_zero : F -> bool;
schecked : bool;
sstep_nonzero : sis_zero (smul stwo sstep) = false
}.

(** IEEE 754 binary64 with the scalar division of Python's [float]. *)
#[export] Instance binary64 : Scalar float := {|
sadd := PrimFloat.add;
ssub := PrimFloat.sub;
smul := PrimFloat.mul;
sdiv := PrimFloat.div;
stwo := 2%float;
sstep := 0x1.0c6f7a0b5ed8dp-20%float;
suninit := PrimFloat.nan;
sis_zero := fun b => PrimFloat.eqb b 0%float;
schecked := true;
sstep_nonzero := eq_refl
|}.

(** The same arithmetic when the objective returns [numpy.float64] values:
    no division raises. *)
Definition numpy_float64 : Scalar float := {|
sadd := PrimFloat.add;
ssub := PrimFloat.sub;
smul := PrimFloat.mul;
sdiv := PrimFloat.div;
stwo := 2%float;
sstep := 0x1.0c6f7a0b5ed8dp-20%float;
suninit := PrimFloat.nan;
sis_zero := fun b => PrimFloat.eqb b 0%float;
schecked := false;
sstep_nonzero := eq_refl
|}.

(** Exact rational arithmetic. *)
#[export] Instance exact : Scalar Qc := {|
sadd := Qcplus;
ssub := Qcminus;
smul := Qcmult;
sdiv := Qcdiv;
stwo := Q2Qc 2;
sstep := Q2Qc (1 # 1000000);
suninit := Q2Qc 0;
sis_zero := fun q => Qeq_bool q 0;
schecked := true;
sstep_nonzero := eq_refl
|}.

(** Whether [a / b] between two scalars raises. *)
Definition raises_on {F} `{Scalar F} (b : F) : bool := schecked && sis_zero b.

(** The two cancellation laws of exact arithmetic that the finite-difference
  loops rely on when they step a coordinate by [-dx], [+2*dx], [-dx]. *)
Class ExactStep (F : Type) `{Scalar F} : Prop := {
step_forward : forall v d : F, sadd (ssub v d) (smul stwo d) = sadd v d;
step_restore : forall v d : F, ssub (sadd v d) d = v
}.

(** ** numpy arrays as lists *)

Module Np.
Section Arrays.
Context {F : Type} `{Scalar F}.

(** [np.empty(n)] and [np.empty((rows, n))]: uninitialised cells. *)
Definition empty (n : nat) : list F := replicate n suninit.
Definition empty2 (rows n : nat) : list (list F) := replicate rows (empty n).

(** [a - b] and [a / s] on one-dimensional arrays of one shape. *)
Definition sub (a b : list F) : list F := zip_with ssub a b.
Definition div_scalar (a : list F) (s : F) : list F := (fun v => sdiv v s) <$> a.
Definition scale (s : F) (a : list F) : list F := smul s <$> a.

(** [grad[:, i] = col], [col] holding one entry per row of [grad]. *)
Definition set_column (grad : list (list F)) (i : nat) (col : list F) : list (list F) :=
  zip_with (fun row c => <[i := c]> row) grad col.

(** Rows of one length. *)
Definition uniform (rows : list (list F)) : Prop :=
  forall r1 r2, r1 ∈ rows -> r2 ∈ rows -> length r1 = length r2.

(** [np.array(rows)] on a list of one-dimensional arrays: a matrix when the
    rows have one length, a [ValueError] (inhomogeneous shape) otherwise. *)
Definition array (rows : list (list F)) : result (list (list F)) :=
  match rows with
  | [] => Ok []
  | r :: rest =>
      if forallb (fun r' => length r' =? length r)%nat rest then Ok rows
      else Raise ValueError
  end.

(** [a += b] on one-dimensional arrays: [b] has the shape of [a] or is
    broadcast from a single entry; any other shape is a [ValueError]. *)
Definition iadd (a b : list F) : result (list F) :=
  if decide (length b = length a) then Ok (zip_with sadd a b)
  else match b with
       | [b0] => Ok ((fun v => sadd v b0) <$> a)
       | _ => Raise ValueError
       end.

End Arrays.
End Np.

(** ** [optimisation_problem.py] *)

Module optimisation_problem.
Section Problem.
Context {F : Type} `{Scalar F}.

Local Abbreviation loc := nat.

(** [NDArray | float | None] bounds carry either shape. *)
Inductive bound : Type :=
| BoundArray (a : list F)
| BoundFloat (v : F).

(** What the objective-gradient callable hands back for the content of its
    argument: an array of its own making, to which nothing else refers, or
    its argument itself, as [lambda x: x] does.  The difference shows on
    line 277, which adds into that array in place.  (The gradients of the
    constraints are copied into a matrix by [np.array], and are kept as
    values.) *)
Inductive handed_back : Type :=
| New (ys : list F)
| Argument.

(** The values in the array handed back, [xs] being those of the argument. *)
Definition content (xs : list F) (h : handed_back) : list F :=
  match h with New ys => ys | Argument => xs end.

(** The attributes set by [__init__] (lines 67-79). *)
Record OptimisationProblem : Type := {
  _objective : list F -> F;
  _grad_objective : option (list F -> handed_back);
  _i_constraints : option (list (list F -> F));
  _grad_i_constraints : option (list (list F -> list F));
  _e_constraints : option (list (list F -> F));
  _grad_e_constraints : option (list (list F -> list F));
  lb : option bound;
  ub : option bound;
  minima : option (list (list F));
  grad_constraints_evaluations : Z
}.

(** [OptimisationProblem(...)]: nine assignments and a zeroed counter. *)
Definition __init__
    (objective : list F -> F)
    (grad_objective : option (list F -> handed_back))
    (lower_bounds upper_bounds : option bound)
    (i_constraints : option (list (list F -> F)))
    (grad_i_constraints : option (list (list F -> list F)))
    (e_constraints : option (list (list F -> F)))
    (grad_e_constraints : option (list (list F -> list F)))
    (minima_ : option (list (list F))) : result OptimisationProblem :=
  Ok {| _objective := objective;
        _grad_objective := grad_objective;
        _i_constraints := i_constraints;
        _grad_i_constraints := grad_i_constraints;
        _e_constraints := e_constraints;
        _grad_e_constraints := grad_e_constraints;
        lb := lower_bounds;
        ub := upper_bounds;
        minima := minima_;
        grad_constraints_evaluations := 0 |}.

(** The properties [m], [me] and [constrained] (lines 81-94). *)
Definition m (self : OptimisationProblem) : nat := length (or_empty (_i_constraints self)).
Definition me (self : OptimisationProblem) : nat := length (or_empty (_e_constraints self)).
Definition constrained (self : OptimisationProblem) : bool := (0 <? m self + me self)%nat.

(** The concatenated orderings: inequalities, then equalities (the local
    lists [constraints] of line 168 and [grad_constraints] of line 214). *)
Definition constraints (self : OptimisationProblem) : list (list F -> F) :=
  or_empty (_i_constraints self) ++ or_empty (_e_constraints self).
Definition grad_constraints (self : OptimisationProblem) : list (list F -> list F) :=
  or_empty (_grad_i_constraints self) ++ or_empty (_grad_e_constraints self).

(** *** Store, trace and the evaluation monad *)

(** One invocation of a user callable, with the content of the array it
    was given.  Constraint callables are named by their position in the
    concatenated list the call site iterates over. *)
Inductive call : Type :=
| CallObjective (arg : list F)
| CallGradObjective (arg : list F)
| CallConstraint (k : nat) (arg : list F)
| CallGradConstraint (k : nat) (arg : list F).

(** The problem instance, the arrays by address, and the calls made. *)
Record world : Type := World {
  self_ : OptimisationProblem;
  heap : gmap nat (list F);
  trace : list call
}.

Definition M (A : Type) : Type := world -> result A * world.

Definition ret {A} (a : A) : M A := fun w => (Ok a, w).
Definition raise {A} (e : exn) : M A := fun w => (Raise e, w).
Definition bind {A B} (c : M A) (k : A -> M B) : M B :=
  fun w => match c w with
           | (Ok a, w') => k a w'
           | (Raise e, w') => (Raise e, w')
           end.
Definition lift {A} (r : result A) : M A := fun w => (r, w).

Local Notation "'do' x <- c ; k" := (bind c (fun x => k))
  (at level 10, x name, c at level 100, k at level 200).

Definition get_self : M OptimisationProblem := fun w => (Ok (self_ w), w).
Definition log (c : call) : M unit :=
  fun w => (Ok tt, World (self_ w) (heap w) (trace w ++ [c])).
Definition load (a : loc) : M (list F) :=
  fun w => match heap w !! a with
           | Some xs => (Ok xs, w)
           | None => (Raise DanglingReference, w)
           end.
Definition store (a : loc) (xs : list F) : M unit :=
  fun w => (Ok tt, World (self_ w) (<[a := xs]> (heap w)) (trace w)).

(** The instance with its counter attribute rebound to [n]. *)
Definition set_evaluations (s : OptimisationProblem) (n : Z) : OptimisationProblem :=
  {| _objective := _objective s;
     _grad_objective := _grad_objective s;
     _i_constraints := _i_constraints s;
     _grad_i_constraints := _grad_i_constraints s;
     _e_constraints := _e_constraints s;
     _grad_e_constraints := _grad_e_constraints s;
     lb := lb s;
     ub := ub s;
     minima := minima s;
     grad_constraints_evaluations := n |}.

(** [self.grad_constraints_evaluations += 1] *)
Definition incr_evaluations : M unit :=
  fun w =>
    let s := self_ w in
    (Ok tt,
     World (set_evaluations s (grad_constraints_evaluations s + 1)) (heap w) (trace w)).

(** [for a in l: s = body(a, s)] and [[f(a) for a in l]]. *)
Fixpoint for_each {A S} (l : list A) (body : A -> S -> M S) (s : S) : M S :=
  match l with
  | [] => ret s
  | a :: l' => do s' <- body a s; for_each l' body s'
  end.
Definition for_range {S} (n : nat) (body : nat -> S -> M S) (s : S) : M S :=
  for_each (seq 0 n) body s.
Fixpoint comprehension {A B} (f : A -> M B) (l : list A) : M (list B) :=
  match l with
  | [] => ret []
  | a :: l' => do b <- f a; do bs <- comprehension f l'; ret (b :: bs)
  end.

(** *** numpy operations on stored arrays *)

(** [x.size] *)
Definition np_size (a : loc) : M nat := do xs <- load a; ret (length xs).

(** [np.copy(x)]: a new array at an unused address. *)
Definition np_copy (a : loc) : M loc :=
  do xs <- load a;
  fun w => let l := fresh (dom (heap w)) in
           (Ok l, World (self_ w) (<[l := xs]> (heap w)) (trace w)).

(** An array as a method holds it: by value when the method or a callable
    made it and nothing else refers to it, by address when it is an array of
    the store. *)
Inductive array_ref : Type :=
| Own (ys : list F)
| At (a : loc).

(** The content of such an array, and [grad += b] on it: the sum replaces
    the content of the array itself. *)
Definition read (r : array_ref) : M (list F) :=
  match r with Own ys => ret ys | At a => load a end.
Definition iadd_into (r : array_ref) (b : list F) : M array_ref :=
  match r with
  | Own ys => do ys' <- lift (Np.iadd ys b); ret (Own ys')
  | At a =>
      do ys <- load a;
      do ys' <- lift (Np.iadd ys b);
      do _ <- store a ys';
      ret (At a)
  end.

(** [a / b] between two scalars. *)
Definition truediv (a b : F) : M F :=
  if raises_on b then raise ZeroDivisionError else ret (sdiv a b).

(** [a[i]], [a[i] = v], [a[i] -= d], [a[i] += d] for [i] from a [range]. *)
Definition index {A} (l : list A) (i : nat) : M A :=
  match l !! i with Some v => ret v | None => raise IndexError end.
Definition get_at (a : loc) (i : nat) : M F := do xs <- load a; index xs i.
Definition set_at (a : loc) (i : nat) (v : F) : M unit :=
  do xs <- load a; do _ <- index xs i; store a (<[i := v]> xs).
Definition isub_at (a : loc) (i : nat) (d : F) : M unit :=
  do xs <- load a; do v <- index xs i; store a (<[i := ssub v d]> xs).
Definition iadd_at (a : loc) (i : nat) (d : F) : M unit :=
  do xs <- load a; do v <- index xs i; store a (<[i := sadd v d]> xs).

(** *** Call sites of the user callables *)

Definition call_objective (f : list F -> F) (x : loc) : M F :=
  do xs <- load x; do _ <- log (CallObjective xs); ret (f xs).
Definition call_grad_objective (g : list F -> handed_back) (x : loc) : M array_ref :=
  do xs <- load x; do _ <- log (CallGradObjective xs);
  ret (match g xs with New ys => Own ys | Argument => At x end).
Definition call_constraint (k : nat) (c : list F -> F) (x : loc) : M F :=
  do xs <- load x; do _ <- log (CallConstraint k xs); ret (c xs).
Definition call_grad_constraint (k : nat) (g : list F -> list F) (x : loc) : M (list F) :=
  do xs <- load x; do _ <- log (CallGradConstraint k xs); ret (g xs).

(** [l[i]] for a Python int [i], keeping the position it resolves to. *)
Definition select {A} (l : list A) (i : Z) : M (nat * A) :=
  match norm_index (length l) i with
  | Some k => do a <- index l k; ret (k, a)
  | None => raise IndexError
  end.

(** *** The methods *)

(** Lines 96-109. *)
Definition compute_objective (x : loc) : M F :=
  do self <- get_self;
  call_objective (_objective self) x.

(** Lines 111-143, with the array the method returns: the one the callable
    handed back (line 132), or the [grad] of line 134.  Line 141 divides two
    scalars. *)
Definition compute_grad_objective_array (x : loc) (dx : F) : M array_ref :=
  do self <- get_self;
  match _grad_objective self with
  | Some g => call_grad_objective g x
  | None =>
      do n <- np_size x;
      let grad := Np.empty n in
      do x_local <- np_copy x;
      do grad <- for_range n (fun i grad =>
        do _ <- isub_at x_local i dx;
        do f_backward <- compute_objective x_local;
        do _ <- iadd_at x_local i (smul stwo dx);
        do f_forward <- compute_objective x_local;
        do quotient <- truediv (ssub f_forward f_backward) (smul stwo dx);
        let grad := <[i := quotient]> grad in
        do xi <- get_at x i;
        do _ <- set_at x_local i xi;
        ret grad) grad;
      ret (Own grad)
  end.

(** The same call for a caller that reads the result. *)
Definition compute_grad_objective (x : loc) (dx : F) : M (list F) :=
  do grad <- compute_grad_objective_array x dx;
  read grad.

(** Lines 145-173. *)
Definition compute_constraints (x : loc) (selection : option (list Z)) : M (list F) :=
  do self <- get_self;
  if (m self + me self =? 0)%nat then raise (Exception "Unconstrained problem.")
  else
    let constraints := constraints self in
    match selection with
    | None =>
        comprehension (fun kc => call_constraint kc.1 kc.2 x) (enumerate constraints)
    | Some sel =>
        do chosen <- comprehension (select constraints) sel;
        comprehension (fun kc => call_constraint kc.1 kc.2 x) chosen
    end.

(** Lines 175-234. *)
Definition compute_grad_constraints
    (x : loc) (dx : F) (selection : option (list Z)) : M (list (list F)) :=
  do self <- get_self;
  if (m self + me self =? 0)%nat then raise (Exception "Unconstrained problem.")
  else if bool_decide (is_Some (_grad_i_constraints self))
          || bool_decide (is_Some (_grad_e_constraints self)) then
    let grad_constraints := grad_constraints self in
    match selection with
    | None =>
        do rows <- comprehension (fun kg => call_grad_constraint kg.1 kg.2 x)
                                 (enumerate grad_constraints);
        lift (Np.array rows)
    | Some sel =>
        do rows <- comprehension (fun i => do kg <- select grad_constraints i;
                                           call_grad_constraint kg.1 kg.2 x) sel;
        lift (Np.array rows)
    end
  else
    do n <- np_size x;
    let grad :=
      match selection with
      | None => Np.empty2 (m self + me self) n
      | Some sel => Np.empty2 (length sel) n
      end in
    do x_local <- np_copy x;
    do grad <- for_range n (fun i grad =>
        do _ <- isub_at x_local i dx;
        do g_backward <- compute_constraints x_local selection;
        do _ <- iadd_at x_local i (smul stwo dx);
        do g_forward <- compute_constraints x_local selection;
        let grad :=
          Np.set_column grad i
            (Np.div_scalar (Np.sub g_forward g_backward) (smul stwo dx)) in
        do _ <- isub_at x_local i dx;
        ret grad) grad;
    do _ <- incr_evaluations;
    ret grad.

(** Lines 236-256. *)
Definition compute_lagrange_function (x : loc) (lm : list F) : M F :=
  do self <- get_self;
  do f <- call_objective (_objective self) x;
  if (0 <? m self + me self)%nat then
    do g <- compute_constraints x None;
    for_range (m self + me self) (fun i f =>
      do lmi <- index lm i;
      do gi <- index g i;
      ret (sadd f (smul lmi gi))) f
  else ret f.

(** Lines 258-278; both gradient calls take the default step [1e-6].  Line
    277 adds into the array that [compute_grad_objective] returned; the
    caller gets that array, read here when the method returns.  [lm] is
    passed by value: the methods only read it, and it is taken to be an
    array of its own. *)
Definition compute_grad_lagrange_function (x : loc) (lm : list F) : M (list F) :=
  do grad <- compute_grad_objective_array x sstep;
  do self <- get_self;
  do grad <-
    if (0 <? m self + me self)%nat then
      do grad_g <- compute_grad_constraints x sstep None;
      for_range (m self + me self) (fun i grad =>
        do lmi <- index lm i;
        do row <- index grad_g i;
        iadd_into grad (Np.scale lmi row)) grad
    else ret grad;
  read grad.

(** A computation that leaves the problem instance as it found it, on
    every outcome. *)
Definition self_stable {A} (c : M A) : Prop := forall w, self_ (c w).2 = self_ w.

(** *** Closed forms of the finite-difference loops *)

(** The two points at which iteration [i] of either loop evaluates: the
    working copy after [x_local[i] -= dx] and after [x_local[i] += 2 * dx],
    [v] being the entry the iteration started from. *)
Definition backward_point (xs : list F) (dx : F) (i : nat) (v : F) : list F :=
  <[i := ssub v dx]> xs.
Definition forward_point (xs : list F) (dx : F) (i : nat) (v : F) : list F :=
  <[i := sadd (ssub v dx) (smul stwo dx)]> xs.

(** The entry that iteration [i] of lines 136-142 stores in [grad[i]]. *)
Definition fd_component (f : list F -> F) (xs : list F) (dx : F) (i : nat) (v : F) : F :=
  sdiv (ssub (f (forward_point xs dx i v)) (f (backward_point xs dx i v))) (smul stwo dx).
Definition fd_gradient (f : list F -> F) (xs : list F) (dx : F) : list F :=
  imap (fd_component f xs dx) xs.

(** The objective evaluations of the loop, in order. *)
Definition fd_calls (xs : list F) (dx : F) : list call :=
  concat (imap (fun i v => [CallObjective (backward_point xs dx i v);
                            CallObjective (forward_point xs dx i v)]) xs).

(** The central difference as the specification words it: [x[i]] perturbed
    by [-dx] and by [+dx], the difference of the objective at the two points
    divided by [2 * dx]. *)
Definition central_difference (f : list F -> F) (xs : list F) (dx : F) (i : nat) (v : F) : F :=
  sdiv (ssub (f (<[i := sadd v dx]> xs)) (f (<[i := ssub v dx]> xs))) (smul stwo dx).

(** What line 232 leaves in [x_local[i]]: the entry stepped by [-dx],
    [+2*dx] and [-dx]. *)
Definition stepped_back (dx : F) (v : F) : F :=
  ssub (sadd (ssub v dx) (smul stwo dx)) dx.

(** The working copy of lines 225-232 when iteration [i] starts: the entries
    before [i] have been stepped back, the others are those of [x]. *)
Definition drifted (xs : list F) (dx : F) (i : nat) : list F :=
  (stepped_back dx <$> take i xs) ++ drop i xs.

(** The constraints a call evaluates, with their positions: all of them, or
    those the selection resolves to ([None] on an index out of range). *)
Definition chosen (self : OptimisationProblem) (selection : option (list Z))
    : option (list (nat * (list F -> F))) :=
  match selection with
  | None => Some (enumerate (constraints self))
  | Some sel => mapM (resolve (constraints self)) sel
  end.

(** The row that lines 226-232 build for one constraint [c], and the
    constraint evaluations of the whole loop, in order. *)
Definition fd_row (c : list F -> F) (xs : list F) (dx : F) : list F :=
  imap (fun i v => fd_component c (drifted xs dx i) dx i v) xs.
Definition fd_constraint_calls (ch : list (nat * (list F -> F))) (xs : list F) (dx : F)
    : list call :=
  concat (imap (fun i v =>
                  ((fun kc => CallConstraint kc.1 (backward_point (drifted xs dx i) dx i v)) <$> ch)
                  ++ ((fun kc => CallConstraint kc.1 (forward_point (drifted xs dx i) dx i v)) <$> ch))
               xs).

(** Whether a call to [compute_grad_constraints] gets past the guard of
    line 210 and the test of line 213, into lines 220-234. *)
Definition numerical_path (self : OptimisationProblem) : bool :=
  negb (m self + me self =? 0)%nat
  && negb (bool_decide (is_Some (_grad_i_constraints self))
           || bool_decide (is_Some (_grad_e_constraints self))).

(** The accumulations of lines 254-255 and 276-277, left to right. *)
Definition weighted_sum (f : F) (lm g : list F) : F :=
  foldl (fun acc lg => sadd acc (smul lg.1 lg.2)) f (zip lm g).
Definition weighted_rows (grad : list F) (lm : list F) (grad_g : list (list F)) : list F :=
  foldl (fun acc lr => zip_with sadd acc (Np.scale lr.1 lr.2)) grad (zip lm grad_g).

End Problem.
End optimisation_problem.

(** ** [optimisation_result.py] *)

Module optimisation_result.

(** [class OptimiserState(Enum)], members in declaration order. *)
Inductive OptimiserState : Type :=
| CONVERGED
| DIVERGED
| ENCOUNTERED_INF
| ENCOUNTERED_NAN
| INFEASIBLE
| NOT_STARTED
| REACHED_MAX_ITERATIONS
| RUNNING
| UNDEFINED.

Section Result.
Context {F : Type}.

(** The eight fields of the dataclass (lines 53-60). *)
Record OptimisationResult : Type := {
  iteration : Z;
  x : list F;
  state : OptimiserState;
  objective : option F;
  lm : option (list F);
  i_constraints : option (list F);
  e_constraints : option (list F);
  step : option (list F)
}.

(** The generated [__init__]: [iteration] and [x] are required, the other
    six fields take their declared defaults when not given. *)
Definition __init__
    (iteration_ : Z) (x_ : list F)
    (state_ : option OptimiserState) (objective_ : option F)
    (lm_ i_constraints_ e_constraints_ step_ : option (list F)) : OptimisationResult :=
  {| iteration := iteration_;
     x := x_;
     state := default UNDEFINED state_;
     objective := objective_;
     lm := lm_;
     i_constraints := i_constraints_;
     e_constraints := e_constraints_;
     step := step_ |}.

(** An assignment [r.field = value] to one of the eight fields, the value
    typed as the field is annotated. *)
Inductive assignment : Type :=
| SetIteration (v : Z)
| SetX (v : list F)
| SetState (v : OptimiserState)
| SetObjective (v : option F)
| SetLm (v : option (list F))
| SetIConstraints (v : option (list F))
| SetEConstraints (v : option (list F))
| SetStep (v : option (list F)).

(** The decorator argument of line 29: [@dataclass(frozen=True)]. *)
Definition frozen : bool := true.

(** [object.__setattr__]: what the assignment does when nothing forbids it. *)
Definition object_setattr (r : OptimisationResult) (a : assignment) : OptimisationResult :=
  match a with
  | SetIteration v =>
      {| iteration := v; x := x r; state := state r; objective := objective r;
         lm := lm r; i_constraints := i_constraints r;
         e_constraints := e_constraints r; step := step r |}
  | SetX v =>
      {| iteration := iteration r; x := v; state := state r; objective := objective r;
         lm := lm r; i_constraints := i_constraints r;
         e_constraints := e_constraints r; step := step r |}
  | SetState v =>
      {| iteration := iteration r; x := x r; state := v; objective := objective r;
         lm := lm r; i_constraints := i_constraints r;
         e_constraints := e_constraints r; step := step r |}
  | SetObjective v =>
      {| iteration := iteration r; x := x r; state := state r; objective := v;
         lm := lm r; i_constraints := i_constraints r;
         e_constraints := e_constraints r; step := step r |}
  | SetLm v =>
      {| iteration := iteration r; x := x r; state := state r; objective := objective r;
         lm := v; i_constraints := i_constraints r;
         e_constraints := e_constraints r; step := step r |}
  | SetIConstraints v =>
      {| iteration := iteration r; x := x r; state := state r; objective := objective r;
         lm := lm r; i_constraints := v;
         e_constraints := e_constraints r; step := step r |}
  | SetEConstraints v =>
      {| iteration := iteration r; x := x r; state := state r; objective := objective r;
         lm := lm r; i_constraints := i_constraints r;
         e_constraints := v; step := step r |}
  | SetStep v =>
      {| iteration := iteration r; x := x r; state := state r; objective := objective r;
         lm := lm r; i_constraints := i_constraints r;
         e_constraints := e_constraints r; step := v |}
  end.

(** The [__setattr__] that [dataclass] generates: on a frozen class an
    assignment to a field raises [FrozenInstanceError], otherwise it is
    handed to [object.__setattr__].  The outcome comes with the instance as
    it is after the attempt. *)
Definition __setattr__ (r : OptimisationResult) (a : assignment)
    : result unit * OptimisationResult :=
  if frozen then (Raise FrozenInstanceError, r) else (Ok tt, object_setattr r a).

(** A run of assignment attempts, one after the other, each exception
    caught by the caller: the outcomes, and the instance at the end. *)
Fixpoint assignments (r : OptimisationResult) (ops : list assignment)
    : list (result unit) * OptimisationResult :=
  match ops with
  | [] => ([], r)
  | a :: ops' =>
      let '(o, r') := __setattr__ r a in
      let '(os, r'') := assignments r' ops' in
      (o :: os, r'')
  end.

End Result.
End optimisation_result.

(** ** Sample problems

    Small instances over binary64 on which the methods are run: the sphere
    objective [x0^2 + x1^2], two inequality constraints and one equality
    constraint on a two-dimensional design vector stored at address [0]. *)

Module sample.
Import optimisation_problem.

Definition at_ (xs : list float) (i : nat) : float := nth i xs PrimFloat.nan.

Definition sphere (xs : list float) : float :=
  (at_ xs 0 * at_ xs 0 + at_ xs 1 * at_ xs 1)%float.
Definition grad_sphere (xs : list float) : list float :=
  [(2 * at_ xs 0)%float; (2 * at_ xs 1)%float].

(** [1 - x0 <= 0], [x1 - 3 <= 0] and [x0 - x1 = 0], with their gradients. *)
Definition c_low (xs : list float) : float := (1 - at_ xs 0)%float.
Definition c_high (xs : list float) : float := (at_ xs 1 - 3)%float.
Definition c_diag (xs : list float) : float := (at_ xs 0 - at_ xs 1)%float.
Definition grad_c_low (_ : list float) : list float := [(-1)%float; 0%float].
Definition grad_c_high (_ : list float) : list float := [0%float; 1%float].
Definition grad_c_diag (_ : list float) : list float := [1%float; (-1)%float].

Definition problem
    (grad_objective : option (list float -> handed_back))
    (i_constraints : option (list (list float -> float)))
    (grad_i_constraints : option (list (list float -> list float)))
    (e_constraints : option (list (list float -> float)))
    (grad_e_constraints : option (list (list float -> list float)))
    : OptimisationProblem :=
  {| _objective := sphere;
     _grad_objective := grad_objective;
     _i_constraints := i_constraints;
     _grad_i_constraints := grad_i_constraints;
     _e_constraints := e_constraints;
     _grad_e_constraints := grad_e_constraints;
     lb := None;
     ub := None;
     minima := Some [[0%float; 0%float]];
     grad_constraints_evaluations := 0 |}.

(** No constraints at all. *)
Definition unconstrained : OptimisationProblem := problem None None None None None.

(** Three constraints, no analytic gradient anywhere. *)
Definition numerical : OptimisationProblem :=
  problem None (Some [c_low; c_high]) None (Some [c_diag]) None.

(** Three constraints, every gradient supplied. *)
Definition analytic : OptimisationProblem :=
  problem (Some (fun xs => New (grad_sphere xs)))
          (Some [c_low; c_high]) (Some [grad_c_low; grad_c_high])
          (Some [c_diag]) (Some [grad_c_diag]).

(** One inequality with its gradient, one equality without. *)
Definition mixed : OptimisationProblem :=
  problem (Some (fun xs => New (grad_sphere xs)))
          (Some [c_low]) (Some [grad_c_low]) (Some [c_diag]) None.

(** One inequality with its gradient, and an objective gradient that hands
    back its argument, as [lambda x: x] does. *)
Definition aliased : OptimisationProblem :=
  problem (Some (fun _ => Argument)) (Some [c_low]) (Some [grad_c_low]) None None.

(** Two inequalities whose gradients have different lengths. *)
Definition ragged : OptimisationProblem :=
  problem None (Some [c_low; c_high]) (Some [grad_c_low; fun _ => [1%float]]) None None.

(** No constraints, and [c_diag] as the objective. *)
Definition diag_objective : OptimisationProblem :=
  {| _objective := c_diag;
     _grad_objective := None;
     _i_constraints := None;
     _grad_i_constraints := None;
     _e_constraints := None;
     _grad_e_constraints := None;
     lb := None;
     ub := None;
     minima := None;
     grad_constraints_evaluations := 0 |}.

(** The store before a call: the instance and [x = [1.0, 2.0]] at address 0. *)
Definition x0 : nat := 0.
Definition xs0 : list float := [1%float; 2%float].
Definition start (p : OptimisationProblem) : world :=
  World p {[ x0 := xs0 ]} [].

End sample.

(** ** Sequences of calls

    A caller that makes one method call after the other on one problem
    instance, dropping the results and catching the exceptions, as in
    [try: problem.compute_constraints(x) except Exception: pass]. *)

Module session.
Section Session.
Context {F : Type} `{Scalar F}.
Import optimisation_problem.

(** A call of one of the six methods, with its arguments. *)
Inductive method_call : Type :=
| ComputeObjective (x : nat)
| ComputeGradObjective (x : nat) (dx : F)
| ComputeConstraints (x : nat) (selection : option (list Z))
| ComputeGradConstraints (x : nat) (dx : F) (selection : option (list Z))
| ComputeLagrangeFunction (x : nat) (lm : list F)
| ComputeGradLagrangeFunction (x : nat) (lm : list F).

(** The store after the call. *)
Definition perform (c : method_call) (w : world) : world :=
  match c with
  | ComputeObjective x => (compute_objective x w).2
  | ComputeGradObjective x dx => (compute_grad_objective x dx w).2
  | ComputeConstraints x selection => (compute_constraints x selection w).2
  | ComputeGradConstraints x dx selection => (compute_grad_constraints x dx selection w).2
  | ComputeLagrangeFunction x lm => (compute_lagrange_function x lm w).2
  | ComputeGradLagrangeFunction x lm => (compute_grad_lagrange_function x lm w).2
  end.

Definition perform_all (cs : list method_call) (w : world) : world :=
  foldl (fun w c => perform c w) w cs.

(** Whether the call runs the numerical Jacobian of lines 220-234 to its
    end: directly, or through [compute_grad_lagrange_function], whose
    Jacobian call comes after its objective gradient call. *)
Definition completes_numerical_jacobian (c : method_call) (w : world) : bool :=
  match c with
  | ComputeGradConstraints x dx selection =>
      numerical_path (self_ w) && is_ok (compute_grad_constraints x dx selection w).1
  | ComputeGradLagrangeFunction x lm =>
      let out := compute_grad_objective x sstep w in
      numerical_path (self_ w) && is_ok out.1
      && is_ok (compute_grad_constraints x sstep None out.2).1
  | _ => false
  end.

(** How many calls of a sequence do so. *)
Fixpoint numerical_jacobians (cs : list method_call) (w : world) : nat :=
  match cs with
  | [] => 0
  | c :: cs' =>
      ((if completes_numerical_jacobian c w then 1 else 0)
       + numerical_jacobians cs' (perform c w))%nat
  end.

(** Whether the objective gradient, when there is one, hands back an array
    of its own making whatever its argument holds; and the calls that reach
    line 277, which adds into the array handed back. *)
Definition hands_back_new (self : @OptimisationProblem F) : Prop :=
  match _grad_objective self with
  | Some g => forall xs, exists ys, g xs = New ys
  | None => True
  end.
Definition adds_in_place (c : method_call) : bool :=
  match c with
  | ComputeGradLagrangeFunction _ _ => true
  | _ => false
  end.

(** A computation that writes to no array outside the addresses [D], and
    one that changes no array that exists when it starts; both on every
    outcome. *)
Definition writes_within (D : gset nat) {A} (c : @M F A) : Prop :=
  forall w a, a ∉ D -> heap (c w).2 !! a = heap w !! a.
Definition keeps_arrays {A} (c : @M F A) : Prop :=
  forall w a, is_Some (heap w !! a) -> heap (c w).2 !! a = heap w !! a.

End Session.
End session.

(** * Properties of [OptimisationProblem] *)

Section ProblemFacts.
Context {F : Type} {HS : Scalar F}.
Import optimisation_problem.

Implicit Types (w : @world F) (self : @OptimisationProblem F) (xs : list F).

Local Abbreviation self_stable c := (@optimisation_problem.self_stable F _ c).

(** ** Running the monad *)

Lemma bind_ok {A B} (c : M A) (k : A -> M B) w a w' :
  c w = (Ok a, w') -> bind c k w = k a w'.
Proof. intros E. unfold bind. by rewrite E. Qed.

Lemma bind_raise {A B} (c : M A) (k : A -> M B) w e w' :
  c w = (Raise e, w') -> bind c k w = (Raise e, w').
Proof. intros E. unfold bind. by rewrite E. Qed.

Lemma bind_inv {A B} (c : M A) (k : A -> M B) w b w' :
  bind c k w = (Ok b, w') -> exists a w1, c w = (Ok a, w1) /\ k a w1 = (Ok b, w').
Proof. unfold bind. destruct (c w) as [[a|e] w1]; [eauto|done]. Qed.

Lemma is_ok_bind_false {A B} (c : M A) (k : A -> M B) w :
  is_ok (c w).1 = false -> is_ok (bind c k w).1 = false.
Proof. unfold bind. by destruct (c w) as [[a|e] w1]. Qed.

Lemma load_live a w xs : heap w !! a = Some xs -> load a w = (Ok xs, w).
Proof. intros E. unfold load. by rewrite E. Qed.

Lemma world_eta w : World (self_ w) (heap w) (trace w) = w.
Proof. by destruct w. Qed.

(** ** The problem instance is only ever touched through its counter *)

Lemma stable_ret {A} (a : A) : self_stable (ret a).
Proof. by intros w. Qed.

Lemma stable_raise {A} e : self_stable (raise (A := A) e).
Proof. by intros w. Qed.

Lemma stable_lift {A} (r : result A) : self_stable (lift r).
Proof. by intros w. Qed.

Lemma stable_bind {A B} (c : M A) (k : A -> M B) :
  self_stable c -> (forall a, self_stable (k a)) -> self_stable (bind c k).
Proof.
  intros Hc Hk w. unfold bind. specialize (Hc w).
  destruct (c w) as [[a|e] w1]; simpl in *; [|done].
  by rewrite Hk.
Qed.

Lemma stable_get_self : self_stable get_self.
Proof. by intros w. Qed.

Lemma stable_log c : self_stable (log c).
Proof. by intros w. Qed.

Lemma stable_load a : self_stable (load a).
Proof. intros w. unfold load. by destruct (heap w !! a). Qed.

Lemma stable_store a xs : self_stable (store a xs).
Proof. by intros w. Qed.

Lemma stable_index {A} (l : list A) i : self_stable (index l i).
Proof. intros w. unfold index. by destruct (l !! i). Qed.

Lemma stable_for_each {A S} (l : list A) (body : A -> S -> M S) :
  (forall a s, self_stable (body a s)) -> forall s, self_stable (for_each l body s).
Proof.
  intros Hb. induction l as [|a l IH]; intros s; simpl.
  - apply stable_ret.
  - apply stable_bind; [apply Hb | apply IH].
Qed.

Lemma stable_comprehension {A B} (f : A -> M B) (l : list A) :
  (forall a, self_stable (f a)) -> self_stable (comprehension f l).
Proof.
  intros Hf. induction l as [|a l IH]; simpl.
  - apply stable_ret.
  - apply stable_bind; [apply Hf|]. intros b.
    apply stable_bind; [apply IH|]. intros bs. apply stable_ret.
Qed.

Create HintDb stable discriminated.
#[local] Hint Resolve stable_ret stable_raise stable_lift stable_get_self stable_log
  stable_load stable_store stable_index : stable.

Ltac stable :=
  repeat first
    [ progress eauto with stable
    | apply stable_bind; [|intros ?]
    | apply stable_for_each; intros ? ?
    | apply stable_comprehension; intros ?
    | match goal with |- self_stable (match ?o with _ => _ end) => destruct o end
    | match goal with |- self_stable (if ?b then _ else _) => destruct b end ].

Lemma stable_np_size a : self_stable (np_size a).
Proof. unfold np_size. stable. Qed.

Lemma stable_np_copy a : self_stable (np_copy a).
Proof. unfold np_copy. stable. Qed.

Lemma stable_get_at a i : self_stable (get_at a i).
Proof. unfold get_at. stable. Qed.

Lemma stable_set_at a i v : self_stable (set_at a i v).
Proof. unfold set_at. stable. Qed.

Lemma stable_isub_at a i d : self_stable (isub_at a i d).
Proof. unfold isub_at. stable. Qed.

Lemma stable_iadd_at a i d : self_stable (iadd_at a i d).
Proof. unfold iadd_at. stable. Qed.

Lemma stable_select {A} (l : list A) i : self_stable (select l i).
Proof. unfold select. stable. Qed.

Lemma stable_call_objective f a : self_stable (call_objective f a).
Proof. unfold call_objective. stable. Qed.

Lemma stable_call_grad_objective g a : self_stable (call_grad_objective g a).
Proof. unfold call_grad_objective. stable. Qed.

Lemma stable_call_constraint k c a : self_stable (call_constraint k c a).
Proof. unfold call_constraint. stable. Qed.

Lemma stable_call_grad_constraint k g a : self_stable (call_grad_constraint k g a).
Proof. unfold call_grad_constraint. stable. Qed.

Lemma stable_read r : self_stable (read r).
Proof. unfold read. stable. Qed.

Lemma stable_iadd_into r b : self_stable (iadd_into r b).
Proof. unfold iadd_into. stable. Qed.

Lemma stable_truediv a b : self_stable (truediv a b).
Proof. unfold truediv. stable. Qed.

#[local] Hint Resolve stable_np_size stable_np_copy stable_get_at stable_set_at
  stable_isub_at stable_iadd_at stable_select stable_call_objective
  stable_call_grad_objective stable_call_constraint stable_call_grad_constraint
  stable_read stable_iadd_into stable_truediv : stable.

Lemma stable_compute_objective a : self_stable (compute_objective a).
Proof. unfold compute_objective. stable. Qed.

Lemma stable_compute_constraints a sel : self_stable (compute_constraints a sel).
Proof. unfold compute_constraints. stable. Qed.

#[local] Hint Resolve stable_compute_objective stable_compute_constraints : stable.

Lemma stable_compute_grad_objective_array a dx :
  self_stable (compute_grad_objective_array a dx).
Proof. unfold compute_grad_objective_array. stable. Qed.

Lemma stable_compute_grad_objective a dx : self_stable (compute_grad_objective a dx).
Proof. unfold compute_grad_objective. apply stable_bind; [|intros r; stable].
  apply stable_compute_grad_objective_array.
Qed.

Lemma stable_compute_lagrange_function a lm : self_stable (compute_lagrange_function a lm).
Proof. unfold compute_lagrange_function. stable. Qed.

(** ** Evaluating lists of callables *)

Lemma norm_index_lt len i k : norm_index len i = Some k -> (k < len)%nat.
Proof.
  unfold norm_index. intros E.
  destruct (Z.leb_spec 0 i), (Z.ltb_spec i (Z.of_nat len)),
    (Z.ltb_spec i 0), (Z.leb_spec (- Z.of_nat len) i);
    simpl in E; simplify_eq; lia.
Qed.

Lemma norm_index_valid len i :
  - Z.of_nat len <= i < Z.of_nat len -> is_Some (norm_index len i).
Proof.
  intros Hi. unfold norm_index.
  destruct (Z.leb_spec 0 i), (Z.ltb_spec i (Z.of_nat len)),
    (Z.ltb_spec i 0), (Z.leb_spec (- Z.of_nat len) i);
    simpl; eauto; lia.
Qed.

Lemma norm_index_nat len (k : nat) : (k < len)%nat -> norm_index len (Z.of_nat k) = Some k.
Proof.
  intros Hk. unfold norm_index.
  destruct (Z.leb_spec 0 (Z.of_nat k)), (Z.ltb_spec (Z.of_nat k) (Z.of_nat len));
    simpl; try lia.
  by rewrite Nat2Z.id.
Qed.

Lemma resolve_getitem {A} (l : list A) i k a :
  resolve l i = Some (k, a) -> norm_index (length l) i = Some k /\ l !! k = Some a.
Proof.
  unfold resolve. intros E.
  destruct (norm_index _ _) as [k'|]; simpl in E; [|done].
  destruct (l !! k') as [a'|] eqn:E'; simpl in E; [|done]. by simplify_eq.
Qed.

Lemma resolve_valid {A} (l : list A) i :
  - Z.of_nat (length l) <= i < Z.of_nat (length l) -> is_Some (resolve l i).
Proof.
  intros Hi. destruct (norm_index_valid _ _ Hi) as [k Hk].
  destruct (lookup_lt_is_Some_2 l k (norm_index_lt _ _ _ Hk)) as [a Ha].
  exists (k, a). unfold resolve. rewrite Hk. simpl. by rewrite Ha.
Qed.

Lemma select_run {A} (l : list A) i w :
  select l i w = (match resolve l i with Some ka => Ok ka | None => Raise IndexError end, w).
Proof.
  unfold select, resolve.
  destruct (norm_index _ _) as [k|] eqn:Ek; simpl; [|done].
  destruct (lookup_lt_is_Some_2 l k (norm_index_lt _ _ _ Ek)) as [a Ha].
  unfold bind, index. rewrite Ha. done.
Qed.

Lemma comprehension_select {A} (l : list A) sel w :
  comprehension (select l) sel w =
  (match mapM (resolve l) sel with Some ch => Ok ch | None => Raise IndexError end, w).
Proof.
  induction sel as [|i sel IH]; simpl; [done|].
  unfold bind at 1. rewrite select_run.
  destruct (resolve l i) as [ka|]; simpl; [|done].
  unfold bind at 1. rewrite IH.
  destruct (mapM _ sel); done.
Qed.

Lemma comprehension_call_constraint x xs (l : list (nat * (list F -> F))) w :
  heap w !! x = Some xs ->
  comprehension (fun kc => call_constraint kc.1 kc.2 x) l w =
  (Ok ((fun kc => kc.2 xs) <$> l),
   World (self_ w) (heap w) (trace w ++ ((fun kc => CallConstraint kc.1 xs) <$> l))).
Proof.
  revert w. induction l as [|[k c] l IH]; intros w Hx; simpl.
  - unfold ret. by rewrite app_nil_r, world_eta.
  - unfold bind at 1. unfold call_constraint at 1.
    unfold bind at 1. rewrite (load_live _ _ _ Hx).
    unfold bind at 1, log, ret. simpl.
    unfold bind at 1. rewrite IH by done. simpl.
    by rewrite <- app_assoc.
Qed.

Lemma comprehension_call_grad_constraint x xs (l : list (nat * (list F -> list F))) w :
  heap w !! x = Some xs ->
  comprehension (fun kg => call_grad_constraint kg.1 kg.2 x) l w =
  (Ok ((fun kg => kg.2 xs) <$> l),
   World (self_ w) (heap w) (trace w ++ ((fun kg => CallGradConstraint kg.1 xs) <$> l))).
Proof.
  revert w. induction l as [|[k c] l IH]; intros w Hx; simpl.
  - unfold ret. by rewrite app_nil_r, world_eta.
  - unfold bind at 1. unfold call_grad_constraint at 1.
    unfold bind at 1. rewrite (load_live _ _ _ Hx).
    unfold bind at 1, log, ret. simpl.
    unfold bind at 1. rewrite IH by done. simpl.
    by rewrite <- app_assoc.
Qed.

Lemma enumerate_values {A B} (f : A -> B) (l : list A) :
  (fun ka => f ka.2) <$> enumerate l = f <$> l.
Proof.
  unfold enumerate. rewrite fmap_imap. simpl.
  induction l as [|a l IH] using rev_ind; [done|].
  rewrite imap_app, fmap_app, IH. done.
Qed.

(** ** [compute_constraints] *)

(** What [compute_constraints] does on a constrained problem, for a live
    design vector: all constraints in the concatenated ordering, or the
    selected ones in selection order; an index out of range is an
    [IndexError] raised before any constraint is evaluated. *)
Lemma compute_constraints_run x xs selection w :
  heap w !! x = Some xs ->
  (m (self_ w) + me (self_ w))%nat <> 0%nat ->
  compute_constraints x selection w =
  match selection with
  | None =>
      (Ok ((fun c => c xs) <$> constraints (self_ w)),
       World (self_ w) (heap w)
         (trace w ++ ((fun kc => CallConstraint kc.1 xs) <$> enumerate (constraints (self_ w)))))
  | Some sel =>
      match mapM (resolve (constraints (self_ w))) sel with
      | Some ch =>
          (Ok ((fun kc => kc.2 xs) <$> ch),
           World (self_ w) (heap w) (trace w ++ ((fun kc => CallConstraint kc.1 xs) <$> ch)))
      | None => (Raise IndexError, w)
      end
  end.
Proof.
  intros Hx Hc. unfold compute_constraints, bind at 1, get_self.
  destruct (Nat.eqb_spec (m (self_ w) + me (self_ w)) 0) as [E|_]; [done|].
  destruct selection as [sel|].
  - unfold bind at 1. rewrite comprehension_select.
    destruct (mapM _ sel) as [ch|]; [|done].
    by rewrite (comprehension_call_constraint _ xs).
  - rewrite (comprehension_call_constraint _ xs) by done.
    pose proof (enumerate_values (fun c : list F -> F => c xs) (constraints (self_ w))) as E.
    simpl in E. by rewrite E.
Qed.

(** ** Single steps on the store *)

Lemma index_run {A} (l : list A) i a w : l !! i = Some a -> index l i w = (Ok a, w).
Proof. intros E. unfold index. by rewrite E. Qed.

Lemma np_size_run a xs w : heap w !! a = Some xs -> np_size a w = (Ok (length xs), w).
Proof. intros E. unfold np_size. by rewrite (bind_ok _ _ _ _ _ (load_live _ _ _ E)). Qed.

Lemma np_copy_run a xs w :
  heap w !! a = Some xs ->
  np_copy a w =
  (Ok (fresh (dom (heap w))),
   World (self_ w) (<[fresh (dom (heap w)) := xs]> (heap w)) (trace w)).
Proof. intros E. unfold np_copy. by rewrite (bind_ok _ _ _ _ _ (load_live _ _ _ E)). Qed.

Lemma fresh_not_live (h : gmap nat (list F)) a xs :
  h !! a = Some xs -> a <> fresh (dom h).
Proof.
  intros E ->. apply (is_fresh (dom h)). apply elem_of_dom. eauto.
Qed.

Lemma get_at_run a i xs v w :
  heap w !! a = Some xs -> xs !! i = Some v -> get_at a i w = (Ok v, w).
Proof.
  intros E Ei. unfold get_at.
  rewrite (bind_ok _ _ _ _ _ (load_live _ _ _ E)). by apply index_run.
Qed.

Lemma set_at_run a i xs v0 v w :
  heap w !! a = Some xs -> xs !! i = Some v0 ->
  set_at a i v w = (Ok tt, World (self_ w) (<[a := <[i := v]> xs]> (heap w)) (trace w)).
Proof.
  intros E Ei. unfold set_at.
  rewrite (bind_ok _ _ _ _ _ (load_live _ _ _ E)).
  by rewrite (bind_ok _ _ _ _ _ (index_run _ _ _ _ Ei)).
Qed.

Lemma isub_at_run a i xs v d w :
  heap w !! a = Some xs -> xs !! i = Some v ->
  isub_at a i d w =
  (Ok tt, World (self_ w) (<[a := <[i := ssub v d]> xs]> (heap w)) (trace w)).
Proof.
  intros E Ei. unfold isub_at.
  rewrite (bind_ok _ _ _ _ _ (load_live _ _ _ E)).
  by rewrite (bind_ok _ _ _ _ _ (index_run _ _ _ _ Ei)).
Qed.

Lemma iadd_at_run a i xs v d w :
  heap w !! a = Some xs -> xs !! i = Some v ->
  iadd_at a i d w =
  (Ok tt, World (self_ w) (<[a := <[i := sadd v d]> xs]> (heap w)) (trace w)).
Proof.
  intros E Ei. unfold iadd_at.
  rewrite (bind_ok _ _ _ _ _ (load_live _ _ _ E)).
  by rewrite (bind_ok _ _ _ _ _ (index_run _ _ _ _ Ei)).
Qed.

Lemma call_objective_run f a xs w :
  heap w !! a = Some xs ->
  call_objective f a w =
  (Ok (f xs), World (self_ w) (heap w) (trace w ++ [CallObjective xs])).
Proof.
  intros E. unfold call_objective.
  by rewrite (bind_ok _ _ _ _ _ (load_live _ _ _ E)).
Qed.

Lemma compute_objective_run a xs w :
  heap w !! a = Some xs ->
  compute_objective a w =
  (Ok (_objective (self_ w) xs),
   World (self_ w) (heap w) (trace w ++ [CallObjective xs])).
Proof.
  intros E. unfold compute_objective, bind at 1, get_self, call_objective.
  by rewrite (bind_ok _ _ _ _ _ (load_live _ _ _ E)).
Qed.

(** ** Loops *)

(** A [for i in range(k, k + len)] loop whose body keeps an invariant [P]
    (indexed by the iteration about to run) runs to its end and establishes
    [P (k + len)]. *)
Lemma for_each_seq_run {S} (body : nat -> S -> M S) (P : nat -> S -> world -> Prop) len :
  forall k s w,
    (forall i s w, (k <= i < k + len)%nat -> P i s w ->
       exists s' w', body i s w = (Ok s', w') /\ P (Datatypes.S i) s' w') ->
    P k s w ->
    exists s' w', for_each (seq k len) body s w = (Ok s', w') /\ P (k + len)%nat s' w'.
Proof.
  induction len as [|len IH]; intros k s w Hb HP; simpl.
  - exists s, w. by rewrite Nat.add_0_r.
  - destruct (Hb k s w) as (s1 & w1 & E1 & HP1); [lia|done|].
    destruct (IH (Datatypes.S k) s1 w1) as (s2 & w2 & E2 & HP2); [|done|].
    { intros i s' w' Hi. apply Hb. lia. }
    exists s2, w2. rewrite (bind_ok _ _ _ _ _ E1).
    split; [done|]. by replace (k + Datatypes.S len)%nat with (Datatypes.S k + len)%nat by lia.
Qed.

(** ** [compute_grad_objective] *)

Lemma truediv_run a b w : raises_on b = false -> truediv a b w = (Ok (sdiv a b), w).
Proof. intros Hb. unfold truediv. by rewrite Hb. Qed.

(** The division by twice the default step does not raise. *)
Lemma sstep_divides : raises_on (smul stwo sstep) = false.
Proof. unfold raises_on. by rewrite sstep_nonzero, andb_false_r. Qed.

(** With an analytic gradient the callable is evaluated once at [x], and
    the method returns the array it hands back. *)
Lemma compute_grad_objective_array_analytic x xs dx g w :
  heap w !! x = Some xs ->
  _grad_objective (self_ w) = Some g ->
  compute_grad_objective_array x dx w =
  (Ok (match g xs with New ys => Own ys | Argument => At x end),
   World (self_ w) (heap w) (trace w ++ [CallGradObjective xs])).
Proof.
  intros Hx Hg. unfold compute_grad_objective_array, bind at 1, get_self.
  rewrite Hg. unfold call_grad_objective.
  by rewrite (bind_ok _ _ _ _ _ (load_live _ _ _ Hx)).
Qed.

Lemma compute_grad_objective_analytic x xs dx g w :
  heap w !! x = Some xs ->
  _grad_objective (self_ w) = Some g ->
  compute_grad_objective x dx w =
  (Ok (content xs (g xs)), World (self_ w) (heap w) (trace w ++ [CallGradObjective xs])).
Proof.
  intros Hx Hg. unfold compute_grad_objective.
  rewrite (bind_ok _ _ _ _ _ (compute_grad_objective_array_analytic x xs dx g w Hx Hg)).
  destruct (g xs) as [ys|]; simpl; [done|].
  unfold load. simpl. by rewrite Hx.
Qed.

(** Without one, the loop of lines 134-143 runs to its end: it fills [grad]
    with the finite differences, works on a copy of [x] at a fresh address,
    and leaves that copy equal to [x]. *)
Lemma compute_grad_objective_array_numerical x xs dx w :
  heap w !! x = Some xs ->
  _grad_objective (self_ w) = None ->
  raises_on (smul stwo dx) = false ->
  compute_grad_objective_array x dx w =
  (Ok (Own (fd_gradient (_objective (self_ w)) xs dx)),
   World (self_ w) (<[fresh (dom (heap w)) := xs]> (heap w)) (trace w ++ fd_calls xs dx)).
Proof.
  intros Hx Hg Hdx. unfold compute_grad_objective_array, bind at 1, get_self.
  rewrite Hg.
  rewrite (bind_ok _ _ _ _ _ (np_size_run _ _ _ Hx)).
  rewrite (bind_ok _ _ _ _ _ (np_copy_run _ _ _ Hx)).
  set (xl := fresh (dom (heap w))).
  assert (x <> xl) as Hne by by eapply fresh_not_live.
  set (s := self_ w). set (h := heap w). set (f := _objective s).
  set (evs := imap (fun i v => [CallObjective (backward_point xs dx i v);
                                CallObjective (forward_point xs dx i v)]) xs).
  set (P := fun (i : nat) (g : list F) (w' : world) =>
              w' = World s (<[xl := xs]> h) (trace w ++ concat (take i evs)) /\
              g = take i (fd_gradient f xs dx) ++ drop i (Np.empty (length xs))).
  unfold for_range.
  edestruct (for_each_seq_run (S := list F)) with (P := P) (k := 0%nat) (len := length xs)
    as (g' & w' & E & [-> ->]); cycle 2.
  { rewrite (bind_ok _ _ _ _ _ E). unfold ret. f_equal.
    - f_equal. f_equal. rewrite take_ge, drop_ge; [by rewrite app_nil_r| |].
      + unfold Np.empty. by rewrite length_replicate.
      + unfold fd_gradient. by rewrite length_imap.
    - f_equal. f_equal. unfold fd_calls. f_equal. fold evs. apply take_ge.
      unfold evs. by rewrite length_imap. }
  2:{ split; [|done]. simpl. by rewrite app_nil_r. }
  intros i g w1 [_ Hi] [-> ->]. simpl in Hi.
  destruct (lookup_lt_is_Some_2 xs i Hi) as [v Hv].
  eexists _, _. split.
  - erewrite bind_ok; cycle 1.
    { eapply isub_at_run; [apply lookup_insert_eq | exact Hv]. }
    simpl. rewrite insert_insert_eq.
    erewrite bind_ok; cycle 1.
    { eapply compute_objective_run. simpl. apply lookup_insert_eq. }
    simpl.
    erewrite bind_ok; cycle 1.
    { eapply iadd_at_run; simpl; [apply lookup_insert_eq|].
      apply list_lookup_insert_eq. done. }
    simpl. rewrite insert_insert_eq, list_insert_insert_eq.
    erewrite bind_ok; cycle 1.
    { eapply compute_objective_run. simpl. apply lookup_insert_eq. }
    simpl.
    rewrite (bind_ok _ _ _ _ _ (truediv_run _ _ _ Hdx)).
    erewrite bind_ok; cycle 1.
    { eapply get_at_run; simpl; [|exact Hv]. by rewrite lookup_insert_ne. }
    erewrite bind_ok; cycle 1.
    { eapply set_at_run; simpl; [apply lookup_insert_eq|].
      apply list_lookup_insert_eq. done. }
    simpl. rewrite insert_insert_eq, list_insert_insert_eq, (list_insert_id xs i v Hv).
    unfold ret. reflexivity.
  - assert (fd_gradient f xs dx !! i = Some (fd_component f xs dx i v)) as Hfd.
    { unfold fd_gradient. by rewrite list_lookup_imap, Hv. }
    assert (evs !! i = Some [CallObjective (backward_point xs dx i v);
                             CallObjective (forward_point xs dx i v)]) as Hev.
    { unfold evs. by rewrite list_lookup_imap, Hv. }
    split.
    + rewrite (take_S_r _ _ _ Hev), concat_app. simpl.
      by rewrite <- !app_assoc.
    + rewrite (take_S_r _ _ _ Hfd).
      assert (length (take i (fd_gradient f xs dx)) = i) as Hlen.
      { apply length_take_le. unfold fd_gradient. rewrite length_imap. lia. }
      rewrite insert_app_r_alt by lia. rewrite Hlen, Nat.sub_diag.
      rewrite (drop_S _ suninit i).
      2:{ unfold Np.empty. by apply lookup_replicate_2. }
      simpl. by rewrite <- app_assoc.
Qed.

Lemma compute_grad_objective_numerical x xs dx w :
  heap w !! x = Some xs ->
  _grad_objective (self_ w) = None ->
  raises_on (smul stwo dx) = false ->
  compute_grad_objective x dx w =
  (Ok (fd_gradient (_objective (self_ w)) xs dx),
   World (self_ w) (<[fresh (dom (heap w)) := xs]> (heap w)) (trace w ++ fd_calls xs dx)).
Proof.
  intros Hx Hg Hdx. unfold compute_grad_objective.
  by rewrite (bind_ok _ _ _ _ _ (compute_grad_objective_array_numerical x xs dx w Hx Hg Hdx)).
Qed.

(** When the division of line 141 raises, it does so in the first
    iteration, after the two objective evaluations; the working copy is
    left with its first entry stepped. *)
Lemma compute_grad_objective_array_zero x v xs dx w :
  heap w !! x = Some (v :: xs) ->
  _grad_objective (self_ w) = None ->
  raises_on (smul stwo dx) = true ->
  compute_grad_objective_array x dx w =
  (Raise ZeroDivisionError,
   World (self_ w)
         (<[fresh (dom (heap w)) := sadd (ssub v dx) (smul stwo dx) :: xs]> (heap w))
         (trace w ++ [CallObjective (ssub v dx :: xs);
                      CallObjective (sadd (ssub v dx) (smul stwo dx) :: xs)])).
Proof.
  intros Hx Hg Hdx. unfold compute_grad_objective_array, bind at 1, get_self.
  rewrite Hg.
  rewrite (bind_ok _ _ _ _ _ (np_size_run _ _ _ Hx)).
  rewrite (bind_ok _ _ _ _ _ (np_copy_run _ _ _ Hx)).
  erewrite bind_raise; [reflexivity|].
  unfold for_range. simpl.
  erewrite bind_raise; [reflexivity|].
  erewrite bind_ok; cycle 1.
  { eapply isub_at_run; simpl; [apply lookup_insert_eq | reflexivity]. }
  simpl. rewrite insert_insert_eq.
  erewrite bind_ok; cycle 1.
  { eapply compute_objective_run. simpl. apply lookup_insert_eq. }
  simpl.
  erewrite bind_ok; cycle 1.
  { eapply iadd_at_run; simpl; [apply lookup_insert_eq | reflexivity]. }
  simpl. rewrite insert_insert_eq.
  erewrite bind_ok; cycle 1.
  { eapply compute_objective_run. simpl. apply lookup_insert_eq. }
  simpl.
  erewrite bind_raise; [|unfold truediv; rewrite Hdx; reflexivity].
  by rewrite <- app_assoc.
Qed.

Lemma compute_grad_objective_zero x v xs dx w :
  heap w !! x = Some (v :: xs) ->
  _grad_objective (self_ w) = None ->
  raises_on (smul stwo dx) = true ->
  compute_grad_objective x dx w =
  (Raise ZeroDivisionError,
   World (self_ w)
         (<[fresh (dom (heap w)) := sadd (ssub v dx) (smul stwo dx) :: xs]> (heap w))
         (trace w ++ [CallObjective (ssub v dx :: xs);
                      CallObjective (sadd (ssub v dx) (smul stwo dx) :: xs)])).
Proof.
  intros Hx Hg Hdx. unfold compute_grad_objective.
  by rewrite (bind_raise _ _ _ _ _ (compute_grad_objective_array_zero x v xs dx w Hx Hg Hdx)).
Qed.

(** A design vector without entries: the loop does not run. *)
Lemma compute_grad_objective_array_empty x dx w :
  heap w !! x = Some [] ->
  _grad_objective (self_ w) = None ->
  compute_grad_objective_array x dx w =
  (Ok (Own []), World (self_ w) (<[fresh (dom (heap w)) := []]> (heap w)) (trace w)).
Proof.
  intros Hx Hg. unfold compute_grad_objective_array, bind at 1, get_self.
  rewrite Hg.
  rewrite (bind_ok _ _ _ _ _ (np_size_run _ _ _ Hx)).
  by rewrite (bind_ok _ _ _ _ _ (np_copy_run _ _ _ Hx)).
Qed.

Lemma compute_grad_objective_empty x dx w :
  heap w !! x = Some [] ->
  _grad_objective (self_ w) = None ->
  compute_grad_objective x dx w =
  (Ok [], World (self_ w) (<[fresh (dom (heap w)) := []]> (heap w)) (trace w)).
Proof.
  intros Hx Hg. unfold compute_grad_objective.
  by rewrite (bind_ok _ _ _ _ _ (compute_grad_objective_array_empty x dx w Hx Hg)).
Qed.

(** An array that the method returns by address is the design vector, and
    is there to be read. *)
Lemma compute_grad_objective_array_live x dx w a w1 :
  compute_grad_objective_array x dx w = (Ok (At a), w1) ->
  a = x /\ is_Some (heap w1 !! a).
Proof.
  unfold compute_grad_objective_array, bind at 1, get_self.
  destruct (_grad_objective (self_ w)) as [g|].
  - unfold call_grad_objective, bind at 1, load.
    destruct (heap w !! x) as [xs|] eqn:Hx; [|done].
    unfold bind, log, ret. simpl. destruct (g xs); [done|].
    intros [= <- <-]. simpl. eauto.
  - intros E.
    apply bind_inv in E as (n & w2 & _ & E).
    apply bind_inv in E as (xl & w3 & _ & E).
    by apply bind_inv in E as (grad & w4 & _ & E).
Qed.

(** The reading caller sees the outcome and the store of the call. *)
Lemma compute_grad_objective_outcome x dx w :
  match compute_grad_objective_array x dx w with
  | (Ok r, w1) =>
      exists ys, read r w1 = (Ok ys, w1) /\ compute_grad_objective x dx w = (Ok ys, w1)
  | (Raise e, w1) => compute_grad_objective x dx w = (Raise e, w1)
  end.
Proof.
  unfold compute_grad_objective.
  pose proof (compute_grad_objective_array_live x dx w) as Hl.
  destruct (compute_grad_objective_array x dx w) as [[[ys|a]|e] w1] eqn:E.
  - exists ys. by rewrite (bind_ok _ _ _ _ _ E).
  - destruct (Hl a w1 eq_refl) as [_ [ys Ha]].
    exists ys. rewrite (bind_ok _ _ _ _ _ E). simpl. unfold load. by rewrite Ha.
  - by rewrite (bind_raise _ _ _ _ _ E).
Qed.

(** ** [compute_grad_constraints] *)

Lemma compute_constraints_chosen x xs selection ch w :
  heap w !! x = Some xs ->
  (m (self_ w) + me (self_ w))%nat <> 0%nat ->
  chosen (self_ w) selection = Some ch ->
  compute_constraints x selection w =
  (Ok ((fun kc => kc.2 xs) <$> ch),
   World (self_ w) (heap w) (trace w ++ ((fun kc => CallConstraint kc.1 xs) <$> ch))).
Proof.
  intros Hx Hc Hch. rewrite (compute_constraints_run _ xs) by done.
  destruct selection as [sel|]; simpl in Hch.
  - by rewrite Hch.
  - injection Hch as <-.
    pose proof (enumerate_values (fun c : list F -> F => c xs) (constraints (self_ w))) as E.
    simpl in E. by rewrite E.
Qed.

Lemma length_enumerate {A} (l : list A) : length (enumerate l) = length l.
Proof. unfold enumerate. apply length_imap. Qed.

Lemma length_constraints self : length (constraints self) = (m self + me self)%nat.
Proof. unfold constraints, m, me. apply length_app. Qed.

(** The number of rows line 221 or 223 allocates is the number of
    constraints the call evaluates. *)
Lemma chosen_rows self selection ch :
  chosen self selection = Some ch ->
  length ch = match selection with
              | None => (m self + me self)%nat
              | Some sel => length sel
              end.
Proof.
  destruct selection as [sel|]; simpl; intros E.
  - symmetry. by eapply length_mapM.
  - injection E as <-. by rewrite length_enumerate, length_constraints.
Qed.

Lemma fmap_replicate_const {A B} (b : B) (l : list A) :
  (fun _ => b) <$> l = replicate (length l) b.
Proof. induction l; simpl; by f_equal. Qed.

Lemma drifted_lookup xs dx i v : xs !! i = Some v -> drifted xs dx i !! i = Some v.
Proof.
  intros Hv. unfold drifted.
  assert (i < length xs)%nat by by eapply lookup_lt_Some.
  rewrite lookup_app_r; rewrite length_fmap, length_take_le by lia; [|lia].
  rewrite Nat.sub_diag, lookup_drop. by rewrite Nat.add_0_r.
Qed.

Lemma drifted_step xs dx i v :
  xs !! i = Some v ->
  <[i := stepped_back dx v]> (drifted xs dx i) = drifted xs dx (S i).
Proof.
  intros Hv. unfold drifted.
  assert (i < length xs)%nat by by eapply lookup_lt_Some.
  rewrite insert_app_r_alt; rewrite length_fmap, length_take_le by lia; [|lia].
  rewrite Nat.sub_diag, (drop_S _ v i Hv), (take_S_r _ _ _ Hv), fmap_app.
  simpl. by rewrite <- app_assoc.
Qed.

Lemma set_column_fmap {A} (ch : list A) (R : A -> list F) (gf gb : A -> F) i d :
  Np.set_column (R <$> ch) i (Np.div_scalar (Np.sub (gf <$> ch) (gb <$> ch)) d) =
  (fun a => <[i := sdiv (ssub (gf a) (gb a)) d]> (R a)) <$> ch.
Proof.
  unfold Np.set_column, Np.div_scalar, Np.sub.
  induction ch as [|a ch IH]; simpl; [done|]. by f_equal.
Qed.

(** The numerical path of lines 220-234 on a constrained problem without
    analytic constraint gradients: it returns the finite-difference
    Jacobian of the evaluated constraints, works on a copy of [x] at a fresh
    address, and increments the counter once. *)
Lemma compute_grad_constraints_numerical x xs dx selection ch w :
  heap w !! x = Some xs ->
  (m (self_ w) + me (self_ w))%nat <> 0%nat ->
  _grad_i_constraints (self_ w) = None ->
  _grad_e_constraints (self_ w) = None ->
  chosen (self_ w) selection = Some ch ->
  compute_grad_constraints x dx selection w =
  (Ok ((fun kc => fd_row kc.2 xs dx) <$> ch),
   World (set_evaluations (self_ w) (grad_constraints_evaluations (self_ w) + 1))
         (<[fresh (dom (heap w)) := stepped_back dx <$> xs]> (heap w))
         (trace w ++ fd_constraint_calls ch xs dx)).
Proof.
  intros Hx Hc Hgi Hge Hch. unfold compute_grad_constraints, bind at 1, get_self.
  destruct (Nat.eqb_spec (m (self_ w) + me (self_ w)) 0) as [E|_]; [done|].
  rewrite Hgi, Hge. simpl.
  rewrite (bind_ok _ _ _ _ _ (np_size_run _ _ _ Hx)).
  rewrite (bind_ok _ _ _ _ _ (np_copy_run _ _ _ Hx)).
  set (xl := fresh (dom (heap w))).
  assert (x <> xl) as Hne by by eapply fresh_not_live.
  set (s := self_ w) in *. set (h := heap w).
  set (evs := imap (fun i v =>
      ((fun kc => CallConstraint kc.1 (backward_point (drifted xs dx i) dx i v)) <$> ch)
      ++ ((fun kc => CallConstraint kc.1 (forward_point (drifted xs dx i) dx i v)) <$> ch)) xs).
  set (P := fun (i : nat) (g : list (list F)) (w' : world) =>
     w' = World s (<[xl := drifted xs dx i]> h) (trace w ++ concat (take i evs)) /\
     g = (fun kc => take i (fd_row kc.2 xs dx) ++ drop i (Np.empty (length xs))) <$> ch).
  unfold for_range.
  edestruct (for_each_seq_run (S := list (list F))) with (P := P) (k := 0%nat) (len := length xs)
    as (g' & w' & E & [-> ->]); cycle 2.
  { rewrite (bind_ok _ _ _ _ _ E). simpl. unfold bind, incr_evaluations, ret. simpl.
    f_equal.
    - f_equal. apply list_fmap_ext. intros _ [k c] _. simpl.
      rewrite take_ge, drop_ge; [by rewrite app_nil_r| |].
      + unfold Np.empty. by rewrite length_replicate.
      + unfold fd_row. by rewrite length_imap.
    - f_equal.
      + f_equal. unfold drifted. by rewrite firstn_all, drop_all, app_nil_r.
      + f_equal. unfold fd_constraint_calls. f_equal. fold evs. apply take_ge.
        unfold evs. by rewrite length_imap. }
  2:{ split.
      - simpl. rewrite app_nil_r. unfold drifted. simpl. by rewrite drop_0.
      - simpl. rewrite fmap_replicate_const. unfold Np.empty2.
        rewrite (chosen_rows _ _ _ Hch). by destruct selection. }
  intros i g w1 [_ Hi] [-> ->]. simpl in Hi.
  destruct (lookup_lt_is_Some_2 xs i Hi) as [v Hv].
  pose proof (drifted_lookup xs dx i v Hv) as Hd.
  assert (i < length (drifted xs dx i))%nat as Hdi by by eapply lookup_lt_Some.
  eexists _, _. split.
  - erewrite bind_ok; cycle 1.
    { eapply isub_at_run; [apply lookup_insert_eq | exact Hd]. }
    simpl. rewrite insert_insert_eq.
    erewrite bind_ok; cycle 1.
    { eapply compute_constraints_chosen; simpl; [apply lookup_insert_eq|done|exact Hch]. }
    simpl.
    erewrite bind_ok; cycle 1.
    { eapply iadd_at_run; simpl; [apply lookup_insert_eq|].
      by apply list_lookup_insert_eq. }
    simpl. rewrite insert_insert_eq, list_insert_insert_eq.
    erewrite bind_ok; cycle 1.
    { eapply compute_constraints_chosen; simpl; [apply lookup_insert_eq|done|exact Hch]. }
    simpl.
    erewrite bind_ok; cycle 1.
    { eapply isub_at_run; simpl; [apply lookup_insert_eq|].
      by apply list_lookup_insert_eq. }
    simpl. rewrite insert_insert_eq, list_insert_insert_eq.
    unfold ret. reflexivity.
  - assert (evs !! i = Some
      (((fun kc => CallConstraint kc.1 (backward_point (drifted xs dx i) dx i v)) <$> ch)
       ++ ((fun kc => CallConstraint kc.1 (forward_point (drifted xs dx i) dx i v)) <$> ch)))
      as Hev.
    { unfold evs. by rewrite list_lookup_imap, Hv. }
    split.
    + f_equal.
      * f_equal. by apply drifted_step.
      * rewrite (take_S_r _ _ _ Hev), concat_app. simpl.
        by rewrite app_nil_r, <- !app_assoc.
    + rewrite set_column_fmap. apply list_fmap_ext. intros _ [k c] _. simpl.
      assert (fd_row c xs dx !! i = Some (fd_component c (drifted xs dx i) dx i v)) as Hfd.
      { unfold fd_row. by rewrite list_lookup_imap, Hv. }
      rewrite (take_S_r _ _ _ Hfd).
      assert (length (take i (fd_row c xs dx)) = i) as Hlen.
      { apply length_take_le. unfold fd_row. rewrite length_imap. lia. }
      rewrite insert_app_r_alt by lia. rewrite Hlen, Nat.sub_diag.
      rewrite (drop_S _ suninit i).
      2:{ unfold Np.empty. by apply lookup_replicate_2. }
      simpl. by rewrite <- app_assoc.
Qed.

Lemma comprehension_select_call_grad x xs (gcs : list (list F -> list F)) sel ch w :
  heap w !! x = Some xs ->
  mapM (resolve gcs) sel = Some ch ->
  comprehension (fun i => bind (select gcs i)
                               (fun kg => call_grad_constraint kg.1 kg.2 x)) sel w =
  (Ok ((fun kg => kg.2 xs) <$> ch),
   World (self_ w) (heap w) (trace w ++ ((fun kg => CallGradConstraint kg.1 xs) <$> ch))).
Proof.
  intros Hx Hch. apply mapM_Some in Hch. revert w Hx.
  induction Hch as [|i [k g] sel ch Hi _ IH]; intros w Hx; simpl.
  - unfold ret. by rewrite app_nil_r, world_eta.
  - unfold bind at 1. unfold bind at 1. rewrite select_run, Hi.
    unfold call_grad_constraint. simpl.
    rewrite (bind_ok _ _ _ _ _ (load_live _ _ _ Hx)).
    unfold bind at 1, log, ret. simpl.
    unfold bind at 1. rewrite IH by done. simpl.
    by rewrite <- app_assoc.
Qed.

(** The gate of line 213 and the analytic branch of lines 214-218: as soon
    as one of the two gradient lists is supplied, the supplied callables are
    evaluated, one row each, the rows go through [np.array], and nothing
    else happens. *)
Lemma compute_grad_constraints_analytic x xs dx selection w :
  heap w !! x = Some xs ->
  (m (self_ w) + me (self_ w))%nat <> 0%nat ->
  is_Some (_grad_i_constraints (self_ w)) \/ is_Some (_grad_e_constraints (self_ w)) ->
  forall rows,
    match selection with
    | None => Some (enumerate (grad_constraints (self_ w)))
    | Some sel => mapM (resolve (grad_constraints (self_ w))) sel
    end = Some rows ->
    compute_grad_constraints x dx selection w =
    (Np.array ((fun kg => kg.2 xs) <$> rows),
     World (self_ w) (heap w) (trace w ++ ((fun kg => CallGradConstraint kg.1 xs) <$> rows))).
Proof.
  intros Hx Hc Hg rows Hrows. unfold compute_grad_constraints, bind at 1, get_self.
  destruct (Nat.eqb_spec (m (self_ w) + me (self_ w)) 0) as [E|_]; [done|].
  assert (bool_decide (is_Some (_grad_i_constraints (self_ w)))
          || bool_decide (is_Some (_grad_e_constraints (self_ w))) = true) as ->.
  { apply orb_true_iff. destruct Hg; [left|right]; by apply bool_decide_eq_true. }
  destruct selection as [sel|].
  - by rewrite (bind_ok _ _ _ _ _ (comprehension_select_call_grad _ xs _ _ _ _ Hx Hrows)).
  - injection Hrows as <-.
    by rewrite (bind_ok _ _ _ _ _ (comprehension_call_grad_constraint _ xs _ _ Hx)).
Qed.

(** [np.array] returns the rows unchanged when they have one length, and
    raises [ValueError] when they do not. *)
Lemma array_ok (rows J : list (list F)) :
  Np.array rows = Ok J -> J = rows /\ Np.uniform rows.
Proof.
  destruct rows as [|r rest]; simpl.
  - intros [= <-]. split; [done|]. intros r1 r2 H1. by apply elem_of_nil in H1.
  - destruct (forallb _ rest) eqn:Hall; [|done]. intros [= <-]. split; [done|].
    assert (forall r', r' ∈ r :: rest -> length r' = length r) as Hlen.
    { intros r' [->|Hin]%elem_of_cons; [done|].
      rewrite forallb_forall in Hall. apply Nat.eqb_eq, Hall. by apply list_elem_of_In. }
    intros r1 r2 H1 H2. by rewrite (Hlen r1 H1), (Hlen r2 H2).
Qed.

Lemma array_uniform (rows : list (list F)) :
  Np.uniform rows -> Np.array rows = Ok rows.
Proof.
  intros Hu. destruct rows as [|r rest]; [done|]. simpl.
  assert (forallb (fun r' => length r' =? length r)%nat rest = true) as ->; [|done].
  apply forallb_forall. intros r' Hin. apply Nat.eqb_eq.
  apply Hu; [|by left]. right. by apply list_elem_of_In.
Qed.

Lemma array_ragged (rows : list (list F)) :
  ~ Np.uniform rows -> Np.array rows = Raise ValueError.
Proof.
  intros Hu. destruct (Np.array rows) as [J|e] eqn:E.
  - by apply array_ok in E as [_ ?].
  - destruct rows as [|r rest]; simpl in E; [done|].
    destruct (forallb _ rest); [done|]. by injection E as <-.
Qed.

Lemma uniform_lengths (rows : list (list F)) n :
  Forall (fun r => length r = n) rows -> Np.uniform rows.
Proof.
  rewrite Forall_forall. intros Hr r1 r2 H1 H2. by rewrite (Hr r1 H1), (Hr r2 H2).
Qed.

(** What a call to [compute_grad_constraints] does to the problem instance,
    on every store and for every outcome: the counter goes up by one when
    the numerical path was taken and returned, and nothing else changes. *)
Lemma compute_grad_constraints_self x dx selection w :
  self_ (compute_grad_constraints x dx selection w).2 =
  if numerical_path (self_ w) && is_ok (compute_grad_constraints x dx selection w).1
  then set_evaluations (self_ w) (grad_constraints_evaluations (self_ w) + 1)
  else self_ w.
Proof.
  destruct (compute_grad_constraints x dx selection w) as [r w'] eqn:E. simpl.
  revert E. unfold numerical_path, compute_grad_constraints, bind at 1, get_self.
  destruct (m (self_ w) + me (self_ w) =? 0)%nat; simpl.
  { unfold raise. by intros [= <- <-]. }
  destruct (bool_decide _ || bool_decide _) eqn:Eg; simpl.
  { match goal with |- ?c w = _ -> _ => assert (self_stable c) as Hc by stable end.
    intros E. specialize (Hc w). by rewrite E in Hc. }
  unfold bind at 1.
  pose proof (stable_np_size x w) as S1.
  destruct (np_size x w) as [[n|e] w1]; simpl in S1; [|by intros [= <- <-]].
  unfold bind at 1.
  pose proof (stable_np_copy x w1) as S2.
  destruct (np_copy x w1) as [[xl|e] w2]; simpl in S2;
    [|intros [= <- <-]; simpl; congruence].
  unfold bind at 1.
  match goal with |- context [for_range ?n ?b ?g w2] =>
    assert (self_stable (for_range n b g)) as S3 by (apply stable_for_each; intros; stable);
    specialize (S3 w2); destruct (for_range n b g w2) as [[g'|e] w3]
  end; simpl in S3.
  - unfold bind, incr_evaluations, ret. intros [= <- <-]. simpl. congruence.
  - intros [= <- <-]. simpl. congruence.
Qed.

(** A continuation that leaves the instance alone can be dropped when
    looking at the instance. *)
Lemma self_bind_r {A B} (c : M A) (k : A -> M B) w :
  (forall a, self_stable (k a)) -> self_ (bind c k w).2 = self_ (c w).2.
Proof. intros Hk. unfold bind. destruct (c w) as [[a|e] w1]; [apply Hk|done]. Qed.

(** [compute_grad_lagrange_function] touches the instance only through its
    call to [compute_grad_constraints]. *)
Lemma compute_grad_lagrange_function_self x lm w :
  numerical_path (self_ w) = false ->
  self_ (compute_grad_lagrange_function x lm w).2 = self_ w.
Proof.
  intros Hn. unfold compute_grad_lagrange_function, bind at 1.
  pose proof (stable_compute_grad_objective_array x sstep w) as Hs.
  destruct (compute_grad_objective_array x sstep w) as [[g|e] w1]; simpl in Hs; [|done].
  unfold bind at 1, get_self.
  rewrite self_bind_r by (intros; stable).
  destruct (0 <? m (self_ w1) + me (self_ w1))%nat; [|done].
  rewrite self_bind_r by (intros; apply stable_for_each; intros; stable).
  pose proof (compute_grad_constraints_self x sstep None w1) as Hc.
  rewrite Hs, Hn in Hc. simpl in Hc. by rewrite Hc.
Qed.

(** ** The claims about [OptimisationProblem] *)

(** C3: on a problem with [m = me = 0], [compute_constraints] and
    [compute_grad_constraints] raise the "Unconstrained problem." error for
    every design vector, selection and step size, on every store, and
    leave the store as it was: they never return a value. *)
Theorem unconstrained_constraints_raise x dx selection w :
  m (self_ w) = 0%nat ->
  me (self_ w) = 0%nat ->
  compute_constraints x selection w = (Raise (Exception "Unconstrained problem."), w) /\
  compute_grad_constraints x dx selection w = (Raise (Exception "Unconstrained problem."), w).
Proof.
  intros Hm Hme. unfold compute_constraints, compute_grad_constraints, bind, get_self.
  by rewrite Hm, Hme.
Qed.

(** C4: the counter [grad_constraints_evaluations] goes up by exactly one on
    a call to [compute_grad_constraints] that takes the numerical path and
    returns normally; it keeps its value on a call that uses analytic
    gradients, on a call that raises, across [compute_objective],
    [compute_grad_objective], [compute_constraints] and
    [compute_lagrange_function], and across
    [compute_grad_lagrange_function] unless its constraint gradients are
    numerical. *)
Theorem grad_constraints_evaluations_count x dx selection lm w :
  grad_constraints_evaluations (self_ (compute_grad_constraints x dx selection w).2) =
    grad_constraints_evaluations (self_ w)
    + (if numerical_path (self_ w) && is_ok (compute_grad_constraints x dx selection w).1
       then 1 else 0) /\
  grad_constraints_evaluations (self_ (compute_objective x w).2) =
    grad_constraints_evaluations (self_ w) /\
  grad_constraints_evaluations (self_ (compute_grad_objective x dx w).2) =
    grad_constraints_evaluations (self_ w) /\
  grad_constraints_evaluations (self_ (compute_constraints x selection w).2) =
    grad_constraints_evaluations (self_ w) /\
  grad_constraints_evaluations (self_ (compute_lagrange_function x lm w).2) =
    grad_constraints_evaluations (self_ w) /\
  (if numerical_path (self_ w) then True
   else grad_constraints_evaluations (self_ (compute_grad_lagrange_function x lm w).2) =
        grad_constraints_evaluations (self_ w)).
Proof.
  split; [|repeat split].
  - rewrite compute_grad_constraints_self.
    destruct (_ && _); simpl; lia.
  - by rewrite stable_compute_objective.
  - by rewrite stable_compute_grad_objective.
  - by rewrite stable_compute_constraints.
  - by rewrite stable_compute_lagrange_function.
  - destruct (numerical_path (self_ w)) eqn:Hn; [done|].
    by rewrite compute_grad_lagrange_function_self.
Qed.

(** C5: on a constrained problem, for a selection of valid indices into the
    concatenated constraint ordering, [compute_constraints(x, selection)]
    returns a vector of the length of the selection whose j-th entry is the
    value of the constraint at index [selection[j]], that is, the entry
    [full[selection[j]]] of [full = compute_constraints(x)]; for the
    selection [[2, 0]] it returns [[full[2], full[0]]]. *)
Theorem compute_constraints_selection x xs sel w :
  heap w !! x = Some xs ->
  (m (self_ w) + me (self_ w))%nat <> 0%nat ->
  Forall (fun i => - Z.of_nat (m (self_ w) + me (self_ w)) <= i
                   < Z.of_nat (m (self_ w) + me (self_ w))) sel ->
  exists full v w1 w2,
    compute_constraints x None w = (Ok full, w1) /\
    compute_constraints x (Some sel) w = (Ok v, w2) /\
    length v = length sel /\
    mapM (getitem full) sel = Some v /\
    (forall j i, sel !! j = Some i ->
       v !! j = (fun c => c xs) <$> getitem (constraints (self_ w)) i) /\
    (sel = [2; 0] ->
       exists f2 f0, full !! 2%nat = Some f2 /\ full !! 0%nat = Some f0 /\ v = [f2; f0]).
Proof.
  intros Hx Hc Hsel.
  set (cs := constraints (self_ w)).
  assert (exists ch, mapM (resolve cs) sel = Some ch) as [ch Hch].
  { apply mapM_is_Some. eapply Forall_impl; [exact Hsel|]. intros i Hi. simpl in Hi.
    apply resolve_valid. unfold cs. by rewrite length_constraints. }
  assert (forall i kc, resolve cs i = Some kc ->
            getitem ((fun c => c xs) <$> cs) i = Some (kc.2 xs)) as Hget.
  { intros i [k c] Hi. apply resolve_getitem in Hi as [Hk Hcs].
    unfold getitem. rewrite length_fmap, Hk. simpl.
    by rewrite list_lookup_fmap, Hcs. }
  assert (mapM (getitem ((fun c => c xs) <$> cs)) sel = Some ((fun kc => kc.2 xs) <$> ch))
    as Hmap.
  { apply mapM_Some. apply Forall2_fmap_r. apply mapM_Some in Hch.
    eapply Forall2_impl; [exact Hch|]. intros i kc. apply Hget. }
  eexists _, _, _, _.
  split; [by apply (compute_constraints_run x xs None)|].
  split.
  { rewrite (compute_constraints_run x xs (Some sel)) by done. fold cs. by rewrite Hch. }
  split; [rewrite length_fmap; symmetry; by eapply length_mapM|].
  split; [done|].
  split.
  - intros j i Hj. apply mapM_Some in Hch.
    destruct (Forall2_lookup_l _ _ _ _ _ Hch Hj) as (kc & Hkc & Hres).
    rewrite list_lookup_fmap, Hkc. simpl.
    pose proof (Hget _ _ Hres) as Hg. unfold getitem in *.
    rewrite length_fmap in Hg.
    destruct (norm_index (length cs) i) as [k|]; simpl in *; [|done].
    rewrite list_lookup_fmap in Hg. by rewrite Hg.
  - intros ->. simpl in Hmap. unfold getitem at 1 2 in Hmap.
    destruct (norm_index _ 2) as [k2|] eqn:E2; simpl in Hmap; [|done].
    destruct (_ !! k2) as [f2|] eqn:L2; simpl in Hmap; [|done].
    destruct (norm_index _ 0) as [k0|] eqn:E0; simpl in Hmap; [|done].
    destruct (_ !! k0) as [f0|] eqn:L0; simpl in Hmap; [|done].
    exists f2, f0.
    assert (k2 = 2%nat) as ->.
    { unfold norm_index in E2.
      destruct (Z.ltb_spec 2 (Z.of_nat (length ((fun c => c xs) <$> cs))));
        simpl in E2; [by injection E2 as <- | done]. }
    assert (k0 = 0%nat) as ->.
    { unfold norm_index in E0.
      destruct (Z.ltb_spec 0 (Z.of_nat (length ((fun c => c xs) <$> cs))));
        simpl in E0; [by injection E0 as <- | done]. }
    split; [done|]. split; [done|]. by injection Hmap as <-.
Qed.

(** ** Exact arithmetic *)

Lemma forward_point_exact (HE : ExactStep F) xs dx i v :
  forward_point xs dx i v = <[i := sadd v dx]> xs.
Proof. unfold forward_point. by rewrite step_forward. Qed.

Lemma fd_component_exact (HE : ExactStep F) f xs dx i v :
  fd_component f xs dx i v = central_difference f xs dx i v.
Proof. unfold fd_component, central_difference, backward_point. by rewrite forward_point_exact. Qed.

Lemma stepped_back_exact (HE : ExactStep F) dx v : stepped_back dx v = v.
Proof. unfold stepped_back. by rewrite step_forward, step_restore. Qed.

Lemma stepped_back_fmap_exact (HE : ExactStep F) dx xs : stepped_back dx <$> xs = xs.
Proof.
  induction xs as [|v xs IH]; [done|].
  rewrite fmap_cons, IH. by rewrite stepped_back_exact.
Qed.

Lemma drifted_exact (HE : ExactStep F) xs dx i : drifted xs dx i = xs.
Proof. unfold drifted. by rewrite (stepped_back_fmap_exact HE), take_drop. Qed.

(** C2, as the code has it.  With an analytic objective gradient,
    [compute_grad_objective(x, dx)] returns what that callable returns at
    [x].  Without one, and when the division by [2*dx] does not raise, it
    returns a vector with one entry per design variable, the i-th being the
    objective at [x] with [x[i]] stepped to [(x[i] - dx) + 2*dx], minus the
    objective at [x] with [x[i]] stepped to [x[i] - dx], divided by [2*dx];
    this is the central difference
    [(f(x + dx*e_i) - f(x - dx*e_i)) / (2*dx)] for every entry with
    [(x[i] - dx) + 2*dx = x[i] + dx], which exact arithmetic gives for all
    entries and binary64 for some.  When the division raises, the call
    raises [ZeroDivisionError] unless [x] has no entry. *)
Theorem compute_grad_objective_spec x xs dx w :
  heap w !! x = Some xs ->
  match _grad_objective (self_ w) with
  | Some g => (compute_grad_objective x dx w).1 = Ok (content xs (g xs))
  | None =>
      if raises_on (smul stwo dx) then
        (compute_grad_objective x dx w).1 =
          match xs with [] => Ok [] | _ :: _ => Raise ZeroDivisionError end
      else
        exists grad,
          (compute_grad_objective x dx w).1 = Ok grad /\
          length grad = length xs /\
          forall i v, xs !! i = Some v ->
            grad !! i =
              Some (sdiv (ssub (_objective (self_ w)
                                  (<[i := sadd (ssub v dx) (smul stwo dx)]> xs))
                               (_objective (self_ w) (<[i := ssub v dx]> xs)))
                         (smul stwo dx)) /\
            (sadd (ssub v dx) (smul stwo dx) = sadd v dx ->
             grad !! i = Some (central_difference (_objective (self_ w)) xs dx i v))
  end.
Proof.
  intros Hx. destruct (_grad_objective (self_ w)) as [g|] eqn:Hg.
  - by rewrite (compute_grad_objective_analytic x xs dx g).
  - destruct (raises_on (smul stwo dx)) eqn:Hdx.
    + destruct xs as [|v xs].
      * by rewrite compute_grad_objective_empty.
      * by rewrite (compute_grad_objective_zero x v xs dx).
    + exists (fd_gradient (_objective (self_ w)) xs dx).
      rewrite (compute_grad_objective_numerical x xs dx) by done.
      split; [done|]. split; [unfold fd_gradient; by rewrite length_imap|].
      intros i v Hv.
      assert (fd_gradient (_objective (self_ w)) xs dx !! i
              = Some (fd_component (_objective (self_ w)) xs dx i v)) as Hfd.
      { unfold fd_gradient. by rewrite list_lookup_imap, Hv. }
      split; [exact Hfd|].
      intros HE. rewrite Hfd.
      unfold fd_component, central_difference, forward_point, backward_point.
      by rewrite HE.
Qed.

Lemma numerical_path_spec self :
  numerical_path self = true <->
  (m self + me self)%nat <> 0%nat /\
  _grad_i_constraints self = None /\ _grad_e_constraints self = None.
Proof.
  unfold numerical_path.
  rewrite andb_true_iff, !negb_true_iff, orb_false_iff, !bool_decide_eq_false, Nat.eqb_neq.
  by rewrite <- !eq_None_not_Some.
Qed.

(** C9, as the code has it: the finite-difference paths leave their input
    vector as it was, and work on a copy that only the objective loop
    restores exactly.  On every outcome of [compute_grad_objective] without
    an analytic gradient, and when the numerical path of
    [compute_grad_constraints] returns, the array [x] holds what it held at
    entry, and so does every other array that existed at entry: all writes
    went to a copy at a fresh address.  When the objective loop returns,
    that copy equals [x] again (line 142 reassigns [x[i]]).  After the
    constraint loop each of its entries has been stepped by [-dx], [+2*dx],
    [-dx] (line 232): the copy equals [x] when these steps give every entry
    back, which exact arithmetic guarantees and binary64 does not.  The
    problem instance is unchanged by the first, and changed only in
    [grad_constraints_evaluations] by the second. *)
Theorem finite_difference_frame :
  (forall x xs dx w,
     heap w !! x = Some xs ->
     _grad_objective (self_ w) = None ->
     let out := compute_grad_objective x dx w in
     heap out.2 !! x = Some xs /\
     (forall a, is_Some (heap w !! a) -> heap out.2 !! a = heap w !! a) /\
     self_ out.2 = self_ w /\
     (is_ok out.1 = true ->
      exists x_local,
        heap w !! x_local = None /\
        heap out.2 = <[x_local := xs]> (heap w))) /\
  (forall x xs dx selection w,
     heap w !! x = Some xs ->
     numerical_path (self_ w) = true ->
     is_Some (chosen (self_ w) selection) ->
     let out := compute_grad_constraints x dx selection w in
     is_ok out.1 = true /\
     heap out.2 !! x = Some xs /\
     (forall a, is_Some (heap w !! a) -> heap out.2 !! a = heap w !! a) /\
     self_ out.2 =
       set_evaluations (self_ w) (grad_constraints_evaluations (self_ w) + 1) /\
     exists x_local,
       heap w !! x_local = None /\
       heap out.2 = <[x_local := stepped_back dx <$> xs]> (heap w) /\
       (Forall (fun v => stepped_back dx v = v) xs ->
        heap out.2 = <[x_local := xs]> (heap w))).
Proof.
  assert (forall (h : gmap nat (list F)) a, is_Some (h !! a) -> a <> fresh (dom h)) as Hfresh.
  { intros h a [ys Ha]. by eapply fresh_not_live. }
  assert (forall h : gmap nat (list F), h !! fresh (dom h) = None) as Hnone.
  { intros h. apply not_elem_of_dom. apply is_fresh. }
  split.
  - intros x xs dx w Hx Hg out. subst out.
    assert (exists r ys t,
              compute_grad_objective x dx w =
                (r, World (self_ w) (<[fresh (dom (heap w)) := ys]> (heap w)) t) /\
              (is_ok r = true -> ys = xs)) as (r & ys & t & -> & Hys).
    { destruct (raises_on (smul stwo dx)) eqn:Hdx.
      - destruct xs as [|v xs].
        + eexists _, _, _. by rewrite compute_grad_objective_empty.
        + eexists _, _, _. by rewrite (compute_grad_objective_zero x v xs dx).
      - eexists _, _, _. by rewrite (compute_grad_objective_numerical x xs dx). }
    simpl. split.
    { rewrite lookup_insert_ne; [done|]. apply not_eq_sym, Hfresh. eauto. }
    split.
    { intros a Ha. rewrite lookup_insert_ne; [done|]. by apply not_eq_sym, Hfresh. }
    split; [done|]. intros Hok. rewrite (Hys Hok). eauto.
  - intros x xs dx selection w Hx Hn [ch Hch] out. subst out.
    apply numerical_path_spec in Hn as (Hc & Hgi & Hge).
    rewrite (compute_grad_constraints_numerical x xs dx selection ch) by done. simpl.
    split; [done|]. split.
    { rewrite lookup_insert_ne; [done|]. apply not_eq_sym, Hfresh. eauto. }
    split.
    { intros a Ha. rewrite lookup_insert_ne; [done|]. by apply not_eq_sym, Hfresh. }
    split; [done|].
    exists (fresh (dom (heap w))). split; [done|]. split; [done|].
    intros Hr. f_equal.
    rewrite <- (list_fmap_id xs) at 2. by apply Forall_fmap_ext.
Qed.

(** C10: on an unconstrained problem ([m = me = 0])
    [compute_lagrange_function(x, lm)] is the objective evaluation and
    [compute_grad_lagrange_function(x, lm)] is
    [compute_grad_objective(x)] with the default step, for every [x] and
    every multiplier vector [lm], the empty one included; for a live [x]
    both return a value, the first one the objective at [x]: the guarded
    constraint evaluation is skipped, so neither raises "Unconstrained
    problem.". *)
Theorem lagrange_unconstrained x lm w :
  m (self_ w) = 0%nat ->
  me (self_ w) = 0%nat ->
  compute_lagrange_function x lm w = compute_objective x w /\
  compute_grad_lagrange_function x lm w = compute_grad_objective x sstep w /\
  (forall xs, heap w !! x = Some xs ->
     (compute_lagrange_function x lm w).1 = Ok (_objective (self_ w) xs) /\
     is_ok (compute_grad_lagrange_function x lm w).1 = true).
Proof.
  intros Hm Hme.
  assert (compute_lagrange_function x lm w = compute_objective x w) as E1.
  { unfold compute_lagrange_function, compute_objective, bind at 1 3, get_self.
    rewrite Hm, Hme. simpl. unfold bind.
    pose proof (stable_call_objective (_objective (self_ w)) x w) as Hs.
    destruct (call_objective _ x w) as [[f|e] w1]; done. }
  assert (compute_grad_lagrange_function x lm w = compute_grad_objective x sstep w) as E2.
  { unfold compute_grad_lagrange_function, compute_grad_objective, bind, get_self.
    pose proof (stable_compute_grad_objective_array x sstep w) as Hs.
    destruct (compute_grad_objective_array x sstep w) as [[g|e] w1]; simpl in Hs; [|done].
    by rewrite Hs, Hm, Hme. }
  split; [done|]. split; [done|].
  intros xs Hx. rewrite E1, E2.
  rewrite (compute_objective_run x xs) by done. split; [done|].
  destruct (_grad_objective (self_ w)) as [g|] eqn:Hg.
  - by rewrite (compute_grad_objective_analytic x xs sstep g).
  - by rewrite (compute_grad_objective_numerical x xs sstep) by auto using sstep_divides.
Qed.

(** ** The Lagrange function and its gradient *)

Lemma for_each_app {A S} (l1 l2 : list A) (body : A -> S -> M S) s w :
  for_each (l1 ++ l2) body s w = bind (for_each l1 body s) (for_each l2 body) w.
Proof.
  revert s w. induction l1 as [|a l1 IH]; intros s w; simpl; [done|].
  unfold bind. destruct (body a s w) as [[s1|e] w1]; [|done].
  rewrite IH. by unfold bind.
Qed.

(** A loop does not return when the body of one of its iterations never
    does. *)
Lemma for_each_fails {A S} (l : list A) (body : A -> S -> M S) a :
  a ∈ l -> (forall s w, is_ok (body a s w).1 = false) ->
  forall s w, is_ok (for_each l body s w).1 = false.
Proof.
  intros Ha Hb. induction l as [|b l IH]; intros s w; [by apply elem_of_nil in Ha|].
  simpl. unfold bind. apply elem_of_cons in Ha as [<-|Ha].
  - specialize (Hb s w). by destruct (body a s w) as [[s1|e] w1].
  - destruct (body b s w) as [[s1|e] w1]; [by apply IH|done].
Qed.

(** The loops of lines 254-255 and 276-277: [n] steps that each read
    [lm[i]] and the i-th entry of [g] and fold them into the accumulator,
    by a step that leaves the store alone. *)
Lemma accumulate_run {S B} (lm : list F) (g : list B)
    (step : S -> F -> B -> M S) (pure : S -> F -> B -> S) (Inv : S -> Prop) n f w :
  (n <= length lm)%nat ->
  (n <= length g)%nat ->
  (forall acc a b, Inv acc -> b ∈ g ->
     step acc a b w = (Ok (pure acc a b), w) /\ Inv (pure acc a b)) ->
  Inv f ->
  for_range n (fun i acc => bind (index lm i) (fun a =>
                            bind (index g i) (fun b => step acc a b))) f w =
  (Ok (foldl (fun acc ab => pure acc ab.1 ab.2) f (take n (zip lm g))), w).
Proof.
  intros Hlm Hg Hstep Hf. unfold for_range.
  set (P := fun (i : nat) (acc : S) (w' : world) =>
              w' = w /\ Inv acc /\
              acc = foldl (fun acc ab => pure acc ab.1 ab.2) f (take i (zip lm g))).
  edestruct (for_each_seq_run (S := S)) with (P := P) (k := 0%nat) (len := n)
    as (acc & w' & E & -> & _ & ->); cycle 2.
  { by rewrite E. }
  2:{ by split. }
  intros i acc w1 [_ Hi] (-> & HI & ->). simpl in Hi.
  destruct (lookup_lt_is_Some_2 lm i) as [a Ha]; [lia|].
  destruct (lookup_lt_is_Some_2 g i) as [b Hb]; [lia|].
  destruct (Hstep _ a b HI) as [Es HI']; [by eapply list_elem_of_lookup_2|].
  eexists _, _. split.
  - rewrite (bind_ok _ _ _ _ _ (index_run _ _ _ _ Ha)).
    rewrite (bind_ok _ _ _ _ _ (index_run _ _ _ _ Hb)).
    exact Es.
  - split; [done|]. split; [done|].
    assert (zip lm g !! i = Some (a, b)) as Hz.
    { by rewrite lookup_zip_with, Ha, Hb. }
    by rewrite (take_S_r _ _ _ Hz), foldl_snoc.
Qed.

(** The same loops when [lm] has fewer than [n] entries: the entries there
    are get folded in, then [lm[len(lm)]] is an [IndexError]. *)
Lemma accumulate_short {S B} (lm : list F) (g : list B)
    (step : S -> F -> B -> M S) (pure : S -> F -> B -> S) (Inv : S -> Prop) n f w :
  (length lm < n)%nat ->
  (length lm <= length g)%nat ->
  (forall acc a b, Inv acc -> b ∈ g ->
     step acc a b w = (Ok (pure acc a b), w) /\ Inv (pure acc a b)) ->
  Inv f ->
  for_range n (fun i acc => bind (index lm i) (fun a =>
                            bind (index g i) (fun b => step acc a b))) f w =
  (Raise IndexError, w).
Proof.
  intros Hn Hg Hstep Hf.
  pose proof (accumulate_run lm g step pure Inv (length lm) f w (le_n _) Hg Hstep Hf) as E.
  unfold for_range in *.
  replace n with (length lm + Datatypes.S (n - Datatypes.S (length lm)))%nat by lia.
  rewrite seq_app, for_each_app, (bind_ok _ _ _ _ _ E). simpl.
  erewrite bind_raise; [done|]. erewrite bind_raise; [done|].
  unfold index. by rewrite lookup_ge_None_2.
Qed.

(** Line 277 on a gradient the method holds by value, with rows of its
    length: the scaled rows are added one after the other, until [lm] runs
    out. *)
Lemma add_rows_run (lm : list F) (J : list (list F)) (g0 : list F) n w :
  Forall (fun row => length row = length g0) J ->
  (n <= length J)%nat ->
  for_range n (fun i grad => bind (index lm i) (fun lmi =>
                             bind (index J i) (fun row =>
                             iadd_into grad (Np.scale lmi row)))) (Own g0) w =
  (if decide (n <= length lm)%nat
   then Ok (Own (foldl (fun acc lr => zip_with sadd acc (Np.scale lr.1 lr.2)) g0
                       (take n (zip lm J))))
   else Raise IndexError, w).
Proof.
  intros Hrows Hn.
  set (pure := fun (acc : array_ref) (a : F) (row : list F) =>
                 match acc with
                 | Own ys => Own (zip_with sadd ys (Np.scale a row))
                 | At l => At l
                 end).
  set (Inv := fun acc : array_ref =>
                exists ys : list F, acc = Own ys /\ length ys = length g0).
  assert (forall acc a row, Inv acc -> row ∈ J ->
            iadd_into acc (Np.scale a row) w = (Ok (pure acc a row), w)
            /\ Inv (pure acc a row)) as Hstep.
  { intros acc a row (ys & -> & Hys) Hrow.
    assert (length row = length g0) as Hlen.
    { rewrite Forall_forall in Hrows. by apply Hrows. }
    simpl. unfold bind, lift, ret, Np.iadd, Np.scale. rewrite length_fmap.
    destruct (decide (length row = length ys)) as [_|?]; [|congruence].
    split; [done|]. eexists. split; [done|].
    rewrite length_zip_with, length_fmap. lia. }
  assert (Inv (Own g0)) as Hinv by (eexists; eauto).
  assert (forall (l : list (F * list F)) (g : list F),
            foldl (fun acc ab => pure acc ab.1 ab.2) (Own g) l =
            Own (foldl (fun acc lr => zip_with sadd acc (Np.scale lr.1 lr.2)) g l))
    as Hfold.
  { induction l as [|ab l IH]; intros g; [done|]. simpl. apply IH. }
  destruct (decide (n <= length lm)%nat) as [Hlm|Hlm].
  - rewrite (accumulate_run lm J _ pure Inv) by done. by rewrite Hfold.
  - apply (accumulate_short lm J _ pure Inv); [lia|lia|done|done].
Qed.

(** X1: [compute_lagrange_function] returns the objective at [x], to which the
    products [lm[i] * g[i]] are added one after the other, [g] being the
    constraint values in the concatenated ordering. *)
Lemma compute_lagrange_function_value x xs lm w :
  heap w !! x = Some xs ->
  (m (self_ w) + me (self_ w) <= length lm)%nat ->
  (compute_lagrange_function x lm w).1 =
  Ok (weighted_sum (_objective (self_ w) xs) lm ((fun c => c xs) <$> constraints (self_ w))).
Proof.
  intros Hx Hlm. unfold compute_lagrange_function, bind at 1, get_self.
  rewrite (bind_ok _ _ _ _ _ (call_objective_run _ _ _ _ Hx)).
  destruct (Nat.ltb_spec 0 (m (self_ w) + me (self_ w))) as [Hc|Hc].
  - erewrite bind_ok; cycle 1.
    { apply (compute_constraints_run x xs None); simpl; [done|lia]. }
    simpl.
    match goal with |- context [for_range ?n _ ?f0 ?w0] =>
      pose proof (accumulate_run lm ((fun c => c xs) <$> constraints (self_ w))
                    (fun acc a b => ret (sadd acc (smul a b)))
                    (fun acc a b => sadd acc (smul a b)) (fun _ => True) n f0 w0) as E
    end.
    rewrite E; [|done|by rewrite length_fmap, length_constraints|done|done].
    simpl. unfold weighted_sum. f_equal. f_equal. apply take_ge.
    rewrite length_zip_with, length_fmap, length_constraints. lia.
  - assert (constraints (self_ w) = []) as ->.
    { apply length_zero_iff_nil. rewrite length_constraints. lia. }
    simpl. unfold weighted_sum. by rewrite zip_with_nil_r.
Qed.

(** [compute_grad_lagrange_function] on a constrained problem, given what
    its two inner calls return: when the objective gradient is an array the
    method holds by value and the Jacobian has one row per constraint, each
    of the length of that gradient, the rows scaled by [lm[i]] are added to
    it one after the other; a short [lm] ends the loop with [IndexError]. *)
Lemma compute_grad_lagrange_function_run x lm w g0 w1 J w2 :
  compute_grad_objective_array x sstep w = (Ok (Own g0), w1) ->
  (m (self_ w) + me (self_ w))%nat <> 0%nat ->
  compute_grad_constraints x sstep None w1 = (Ok J, w2) ->
  length J = (m (self_ w) + me (self_ w))%nat ->
  Forall (fun row => length row = length g0) J ->
  compute_grad_lagrange_function x lm w =
  (if decide (m (self_ w) + me (self_ w) <= length lm)%nat
   then Ok (weighted_rows g0 lm J) else Raise IndexError, w2).
Proof.
  intros E0 Hc EJ HJ Hrows.
  pose proof (stable_compute_grad_objective_array x sstep w) as Hs.
  rewrite E0 in Hs. simpl in Hs.
  unfold compute_grad_lagrange_function. rewrite (bind_ok _ _ _ _ _ E0).
  unfold bind at 1, get_self. rewrite Hs.
  destruct (Nat.ltb_spec 0 (m (self_ w) + me (self_ w))) as [_|?]; [|lia].
  unfold bind at 1. rewrite (bind_ok _ _ _ _ _ EJ).
  rewrite (add_rows_run lm J g0) by (done || lia).
  destruct (decide (m (self_ w) + me (self_ w) <= length lm)%nat) as [Hlm|Hlm]; [|done].
  simpl. unfold ret, weighted_rows. rewrite take_ge; [done|].
  rewrite length_zip_with. lia.
Qed.

(** C7, as the code has it: constructing an [OptimisationProblem] never
    fails.  [__init__] stores the objective, its gradient, the bounds, the
    four lists and the minima as they are given and zeroes the counter,
    whatever the lengths of the lists; [m] and [me] then count the
    constraints, and the gradient lists keep their own lengths. *)
Theorem init_stores_unvalidated
    (objective : list F -> F) (grad_objective : option (list F -> handed_back))
    (lower_bounds upper_bounds : option bound)
    (i_constraints : option (list (list F -> F)))
    (grad_i_constraints : option (list (list F -> list F)))
    (e_constraints : option (list (list F -> F)))
    (grad_e_constraints : option (list (list F -> list F)))
    (minima_ : option (list (list F))) :
  exists self,
    __init__ objective grad_objective lower_bounds upper_bounds i_constraints
             grad_i_constraints e_constraints grad_e_constraints minima_ = Ok self /\
    _objective self = objective /\
    _grad_objective self = grad_objective /\
    lb self = lower_bounds /\
    ub self = upper_bounds /\
    minima self = minima_ /\
    _i_constraints self = i_constraints /\
    _grad_i_constraints self = grad_i_constraints /\
    _e_constraints self = e_constraints /\
    _grad_e_constraints self = grad_e_constraints /\
    m self = length (or_empty i_constraints) /\
    me self = length (or_empty e_constraints) /\
    length (grad_constraints self)
      = (length (or_empty grad_i_constraints) + length (or_empty grad_e_constraints))%nat /\
    grad_constraints_evaluations self = 0.
Proof.
  eexists. split; [reflexivity|]. repeat split.
  unfold grad_constraints. simpl. apply length_app.
Qed.

(** ** Further properties *)

(** X3: the analytic branch without a selection evaluates every supplied
    gradient callable once at [x], inequality gradients first, and nothing
    else; it leaves the instance and the arrays alone and hands the rows to
    [np.array].  Rows of one length are returned as the Jacobian, one row
    per supplied callable, which is one row per constraint when each
    gradient list is as long as its constraint list; rows of different
    lengths are a [ValueError]. *)
Theorem analytic_jacobian_rows x xs dx w :
  heap w !! x = Some xs ->
  (m (self_ w) + me (self_ w))%nat <> 0%nat ->
  is_Some (_grad_i_constraints (self_ w)) \/ is_Some (_grad_e_constraints (self_ w)) ->
  exists r rows,
    compute_grad_constraints x dx None w =
      (r, World (self_ w) (heap w)
                (trace w ++ imap (fun k _ => CallGradConstraint k xs)
                                 (grad_constraints (self_ w)))) /\
    rows = (fun g => g xs) <$> grad_constraints (self_ w) /\
    (Np.uniform rows -> r = Ok rows) /\
    (~ Np.uniform rows -> r = Raise ValueError) /\
    length rows = (length (or_empty (_grad_i_constraints (self_ w)))
                   + length (or_empty (_grad_e_constraints (self_ w))))%nat /\
    (length (or_empty (_grad_i_constraints (self_ w))) = m (self_ w) ->
     length (or_empty (_grad_e_constraints (self_ w))) = me (self_ w) ->
     length rows = (m (self_ w) + me (self_ w))%nat).
Proof.
  intros Hx Hc Hg. eexists _, _. split.
  { rewrite (compute_grad_constraints_analytic x xs dx None w Hx Hc Hg _ eq_refl).
    pose proof (enumerate_values (fun g : list F -> list F => g xs)
                  (grad_constraints (self_ w))) as E.
    simpl in E. rewrite E. unfold enumerate. by rewrite fmap_imap. }
  split; [done|].
  split; [apply array_uniform|]. split; [apply array_ragged|].
  assert (length ((fun g : list F -> list F => g xs) <$> grad_constraints (self_ w))
          = (length (or_empty (_grad_i_constraints (self_ w)))
             + length (or_empty (_grad_e_constraints (self_ w))))%nat) as HJ.
  { rewrite length_fmap. unfold grad_constraints. apply length_app. }
  split; [done|]. intros Hi He. by rewrite HJ, Hi, He.
Qed.

(** X2: on a constrained problem with no analytic gradient at all, and a
    multiplier vector with at least [m + me] entries,
    [compute_grad_lagrange_function] returns the finite-difference
    objective gradient plus the rows of the finite-difference Jacobian
    scaled by [lm[i]], added one after the other. *)
Theorem grad_lagrange_numerical x xs lm w :
  heap w !! x = Some xs ->
  _grad_objective (self_ w) = None ->
  numerical_path (self_ w) = true ->
  (m (self_ w) + me (self_ w) <= length lm)%nat ->
  (compute_grad_lagrange_function x lm w).1 =
  Ok (weighted_rows (fd_gradient (_objective (self_ w)) xs sstep) lm
        ((fun c => fd_row c xs sstep) <$> constraints (self_ w))).
Proof.
  intros Hx Hg Hn Hlm. apply numerical_path_spec in Hn as (Hc & Hgi & Hge).
  pose proof (compute_grad_objective_array_numerical x xs sstep w Hx Hg sstep_divides) as E0.
  set (w1 := World (self_ w) (<[fresh (dom (heap w)) := xs]> (heap w))
                   (trace w ++ fd_calls xs sstep)) in *.
  assert (heap w1 !! x = Some xs) as Hx1.
  { simpl. rewrite lookup_insert_ne; [done|]. apply not_eq_sym. by eapply fresh_not_live. }
  pose proof (compute_grad_constraints_numerical x xs sstep None _ w1 Hx1 Hc Hgi Hge eq_refl)
    as EJ.
  rewrite (compute_grad_lagrange_function_run x lm w _ _ _ _ E0 Hc EJ); simpl.
  - destruct (decide (m (self_ w) + me (self_ w) <= length lm)%nat) as [_|?]; [|done].
    f_equal. f_equal.
    pose proof (enumerate_values (fun c : list F -> F => fd_row c xs sstep)
                  (constraints (self_ w))) as E.
    simpl in E. by rewrite E.
  - by rewrite length_fmap, length_enumerate, length_constraints.
  - apply Forall_fmap, Forall_forall. intros [k c] _. simpl.
    unfold fd_row, fd_gradient. by rewrite !length_imap.
Qed.

(** X4: the numerical Jacobian, entry by entry: row [r] belongs to the r-th
    evaluated constraint [c], and its i-th entry is [c] at the working copy
    with entry [i] stepped to [(v - dx) + 2*dx], minus [c] at the working
    copy with entry [i] stepped to [v - dx], divided by [2*dx]; in exact
    arithmetic the working copy is [x] and the entry is the central
    difference of [c] at [x]. *)
Theorem numerical_jacobian_entries x xs dx selection ch w :
  heap w !! x = Some xs ->
  numerical_path (self_ w) = true ->
  chosen (self_ w) selection = Some ch ->
  exists J,
    (compute_grad_constraints x dx selection w).1 = Ok J /\
    length J = length ch /\
    forall r kc, ch !! r = Some kc ->
      exists row,
        J !! r = Some row /\
        length row = length xs /\
        forall i v, xs !! i = Some v ->
          row !! i = Some (fd_component kc.2 (drifted xs dx i) dx i v) /\
          (ExactStep F -> row !! i = Some (central_difference kc.2 xs dx i v)).
Proof.
  intros Hx Hn Hch. apply numerical_path_spec in Hn as (Hc & Hgi & Hge).
  eexists. rewrite (compute_grad_constraints_numerical x xs dx selection ch) by done.
  split; [done|]. split; [by rewrite length_fmap|].
  intros r kc Hr. exists (fd_row kc.2 xs dx).
  split; [by rewrite list_lookup_fmap, Hr|].
  split; [unfold fd_row; by rewrite length_imap|].
  intros i v Hv.
  assert (fd_row kc.2 xs dx !! i = Some (fd_component kc.2 (drifted xs dx i) dx i v)) as E.
  { unfold fd_row. by rewrite list_lookup_imap, Hv. }
  split; [done|]. intros HE. by rewrite E, (drifted_exact HE), fd_component_exact.
Qed.

Lemma length_concat_pairs {A B} (f : nat -> A -> list B) (l : list A) :
  (forall i a, length (f i a) = 2%nat) ->
  length (concat (imap f l)) = (2 * length l)%nat.
Proof.
  revert f. induction l as [|a l IH]; intros f Hf; [done|].
  rewrite imap_cons. simpl. rewrite length_app, Hf, IH; [lia|].
  intros i b. apply Hf.
Qed.

(** X5: when the division by [2*dx] does not raise, the numerical objective
    gradient costs two objective evaluations per design variable, and
    evaluates nothing else. *)
Theorem numerical_gradient_cost x xs dx w :
  heap w !! x = Some xs ->
  _grad_objective (self_ w) = None ->
  raises_on (smul stwo dx) = false ->
  exists calls,
    trace (compute_grad_objective x dx w).2 = trace w ++ calls /\
    length calls = (2 * length xs)%nat /\
    Forall (fun c => exists arg, c = CallObjective arg) calls.
Proof.
  intros Hx Hg Hdx. exists (fd_calls xs dx).
  rewrite (compute_grad_objective_numerical x xs dx) by done. simpl.
  split; [done|]. split.
  - unfold fd_calls. by apply length_concat_pairs.
  - unfold fd_calls. apply Forall_concat, Forall_forall. intros l Hl.
    apply elem_of_lookup_imap in Hl as (i & v & -> & _).
    repeat constructor; eauto.
Qed.

(** ** Selections: errors and composition *)

Lemma norm_index_invalid len i :
  ~ (- Z.of_nat len <= i < Z.of_nat len) -> norm_index len i = None.
Proof.
  intros Hi. unfold norm_index.
  destruct (Z.leb_spec 0 i), (Z.ltb_spec i (Z.of_nat len)),
    (Z.ltb_spec i 0), (Z.leb_spec (- Z.of_nat len) i);
    simpl; try done; lia.
Qed.

Lemma resolve_invalid {A} (l : list A) i :
  ~ (- Z.of_nat (length l) <= i < Z.of_nat (length l)) -> resolve l i = None.
Proof. intros Hi. unfold resolve. by rewrite (norm_index_invalid _ _ Hi). Qed.

Lemma mapM_resolve_invalid {A} (l : list A) sel :
  Exists (fun i => ~ (- Z.of_nat (length l) <= i < Z.of_nat (length l))) sel ->
  mapM (resolve l) sel = None.
Proof.
  intros Hex. destruct (mapM (resolve l) sel) as [ch|] eqn:E; [|done].
  exfalso. assert (is_Some (mapM (resolve l) sel)) as Hs by eauto.
  apply mapM_is_Some_1 in Hs. apply Exists_exists in Hex as (i & Hi & Hbad).
  rewrite Forall_forall in Hs. destruct (Hs i Hi) as [ka Hka]. simpl in Hka.
  by rewrite (resolve_invalid _ _ Hbad) in Hka.
Qed.

(** Line 171 fails on the first index it cannot resolve, before it calls
    any constraint. *)
Lemma compute_constraints_index_error x sel w :
  (m (self_ w) + me (self_ w))%nat <> 0%nat ->
  Exists (fun i => ~ (- Z.of_nat (m (self_ w) + me (self_ w)) <= i
                      < Z.of_nat (m (self_ w) + me (self_ w)))) sel ->
  compute_constraints x (Some sel) w = (Raise IndexError, w).
Proof.
  intros Hc Hex. unfold compute_constraints, bind at 1, get_self.
  destruct (Nat.eqb_spec (m (self_ w) + me (self_ w)) 0) as [E|_]; [done|].
  unfold bind at 1. rewrite comprehension_select.
  rewrite mapM_resolve_invalid; [done|].
  by rewrite length_constraints.
Qed.

(** X6: on a constrained problem, a selection with an index outside
    [-(m+me), m+me) makes [compute_constraints] raise [IndexError] before any
    constraint is evaluated: the store, arrays and trace of calls included,
    is exactly as it was, whatever [x] is. *)
Theorem selection_out_of_range x sel w :
  (m (self_ w) + me (self_ w))%nat <> 0%nat ->
  Exists (fun i => ~ (- Z.of_nat (m (self_ w) + me (self_ w)) <= i
                      < Z.of_nat (m (self_ w) + me (self_ w)))) sel ->
  compute_constraints x (Some sel) w = (Raise IndexError, w).
Proof. apply compute_constraints_index_error. Qed.

Lemma comprehension_select_call_grad_fails x xs (gcs : list (list F -> list F))
    good bad rest ch w :
  heap w !! x = Some xs ->
  mapM (resolve gcs) good = Some ch ->
  resolve gcs bad = None ->
  comprehension (fun i => bind (select gcs i)
                               (fun kg => call_grad_constraint kg.1 kg.2 x))
                (good ++ bad :: rest) w =
  (Raise IndexError,
   World (self_ w) (heap w) (trace w ++ ((fun kg => CallGradConstraint kg.1 xs) <$> ch))).
Proof.
  intros Hx Hch Hbad. apply mapM_Some in Hch. revert w Hx.
  induction Hch as [|i [k g] sel ch Hi _ IH]; intros w Hx; simpl.
  - unfold bind at 1. unfold bind at 1. rewrite select_run, Hbad.
    by rewrite app_nil_r, world_eta.
  - unfold bind at 1. unfold bind at 1. rewrite select_run, Hi.
    unfold call_grad_constraint. simpl.
    rewrite (bind_ok _ _ _ _ _ (load_live _ _ _ Hx)).
    unfold bind at 1, log, ret. simpl.
    unfold bind at 1. rewrite IH by done. simpl.
    by rewrite <- app_assoc.
Qed.

(** X7: what an out-of-range selection index does to
    [compute_grad_constraints].  On the analytic branch the gradients of the
    indices before the bad one are evaluated, then [IndexError] is raised.
    On the numerical path, for a non-empty [x], [IndexError] is raised in the
    first iteration before any constraint is evaluated: the counter is not
    incremented and [x] is untouched, while the working copy has been
    allocated and its first entry stepped by [-dx]. *)
Theorem grad_selection_out_of_range :
  (forall x xs dx good bad rest ch w,
     heap w !! x = Some xs ->
     (m (self_ w) + me (self_ w))%nat <> 0%nat ->
     is_Some (_grad_i_constraints (self_ w)) \/ is_Some (_grad_e_constraints (self_ w)) ->
     mapM (resolve (grad_constraints (self_ w))) good = Some ch ->
     ~ (- Z.of_nat (length (grad_constraints (self_ w))) <= bad
        < Z.of_nat (length (grad_constraints (self_ w)))) ->
     compute_grad_constraints x dx (Some (good ++ bad :: rest)) w =
     (Raise IndexError,
      World (self_ w) (heap w)
            (trace w ++ ((fun kg => CallGradConstraint kg.1 xs) <$> ch)))) /\
  (forall x v xs dx sel w,
     heap w !! x = Some (v :: xs) ->
     numerical_path (self_ w) = true ->
     Exists (fun i => ~ (- Z.of_nat (m (self_ w) + me (self_ w)) <= i
                         < Z.of_nat (m (self_ w) + me (self_ w)))) sel ->
     compute_grad_constraints x dx (Some sel) w =
     (Raise IndexError,
      World (self_ w)
            (<[fresh (dom (heap w)) := ssub v dx :: xs]> (heap w))
            (trace w))).
Proof.
  split.
  - intros x xs dx good bad rest ch w Hx Hc Hg Hch Hbad.
    unfold compute_grad_constraints, bind at 1, get_self.
    destruct (Nat.eqb_spec (m (self_ w) + me (self_ w)) 0) as [E|_]; [done|].
    assert (bool_decide (is_Some (_grad_i_constraints (self_ w)))
            || bool_decide (is_Some (_grad_e_constraints (self_ w))) = true) as ->.
    { apply orb_true_iff. destruct Hg; [left|right]; by apply bool_decide_eq_true. }
    apply bind_raise.
    apply comprehension_select_call_grad_fails; [done|done|].
    by apply resolve_invalid.
  - intros x v xs dx sel w Hx Hn Hex.
    apply numerical_path_spec in Hn as (Hc & Hgi & Hge).
    unfold compute_grad_constraints, bind at 1, get_self.
    destruct (Nat.eqb_spec (m (self_ w) + me (self_ w)) 0) as [E|_]; [done|].
    rewrite Hgi, Hge. simpl.
    rewrite (bind_ok _ _ _ _ _ (np_size_run _ _ _ Hx)).
    rewrite (bind_ok _ _ _ _ _ (np_copy_run _ _ _ Hx)).
    erewrite bind_raise; [reflexivity|].
    unfold for_range. simpl.
    erewrite bind_raise; [reflexivity|].
    erewrite bind_ok; cycle 1.
    { eapply isub_at_run; simpl; [apply lookup_insert_eq | reflexivity]. }
    simpl. rewrite insert_insert_eq.
    erewrite bind_raise; [reflexivity|].
    by apply compute_constraints_index_error.
Qed.

Lemma mapM_getitem_fmap {A B} (f : A -> B) (l : list A) (sel : list Z)
    (ch : list (nat * A)) :
  mapM (resolve l) sel = Some ch ->
  mapM (getitem (f <$> l)) sel = Some ((fun ka => f ka.2) <$> ch).
Proof.
  intros Hch. apply mapM_Some. apply Forall2_fmap_r. apply mapM_Some in Hch.
  eapply Forall2_impl; [exact Hch|]. intros i [k a] Hi. simpl.
  apply resolve_getitem in Hi as [Hk Ha].
  unfold getitem. rewrite length_fmap, Hk. simpl.
  by rewrite list_lookup_fmap, Ha.
Qed.

Lemma mapM_resolve_valid {A} (l : list A) (sel : list Z) :
  Forall (fun i => - Z.of_nat (length l) <= i < Z.of_nat (length l)) sel ->
  is_Some (mapM (resolve l) sel).
Proof.
  intros Hsel. apply mapM_is_Some. eapply Forall_impl; [exact Hsel|].
  intros i Hi. by apply resolve_valid.
Qed.

Lemma mapM_getitem_elem {A} (l : list A) (sel : list Z) (v : list A) a :
  mapM (getitem l) sel = Some v -> a ∈ v -> a ∈ l.
Proof.
  intros Hv Ha. apply mapM_Some in Hv.
  apply list_elem_of_lookup in Ha as [j Hj].
  destruct (Forall2_lookup_r _ _ _ _ _ Hv Hj) as (i & _ & Hi).
  unfold getitem in Hi. destruct (norm_index (length l) i) as [k|]; simpl in Hi; [|done].
  by eapply list_elem_of_lookup_2.
Qed.

(** X8: a selection picks rows of the full Jacobian.  On a constrained
    problem and for a selection of valid indices (into the constraints on
    the numerical path, into the supplied gradients on the analytic branch,
    where the supplied gradients must return rows of one length for
    [np.array] to accept them), [compute_grad_constraints(x, dx, selection)]
    returns [[full[i] for i in selection]], [full] being what the call
    returns without a selection. *)
Theorem jacobian_selection x xs dx sel w :
  heap w !! x = Some xs ->
  (m (self_ w) + me (self_ w))%nat <> 0%nat ->
  Forall (fun i =>
            - Z.of_nat (if numerical_path (self_ w) then m (self_ w) + me (self_ w)
                        else length (grad_constraints (self_ w))) <= i
            < Z.of_nat (if numerical_path (self_ w) then m (self_ w) + me (self_ w)
                        else length (grad_constraints (self_ w)))) sel ->
  numerical_path (self_ w) = true
  \/ Np.uniform ((fun g => g xs) <$> grad_constraints (self_ w)) ->
  exists full rows w1 w2,
    compute_grad_constraints x dx None w = (Ok full, w1) /\
    compute_grad_constraints x dx (Some sel) w = (Ok rows, w2) /\
    length rows = length sel /\
    mapM (getitem full) sel = Some rows.
Proof.
  intros Hx Hc Hsel Hu.
  destruct (numerical_path (self_ w)) eqn:Hn.
  - apply numerical_path_spec in Hn as (_ & Hgi & Hge).
    rewrite <- length_constraints in Hsel.
    destruct (mapM_resolve_valid _ _ Hsel) as [ch Hch].
    eexists _, _, _, _.
    split; [by apply (compute_grad_constraints_numerical x xs dx None)|].
    split; [by apply (compute_grad_constraints_numerical x xs dx (Some sel) ch)|].
    split; [rewrite length_fmap; symmetry; by eapply length_mapM|].
    pose proof (enumerate_values (fun c : list F -> F => fd_row c xs dx)
                  (constraints (self_ w))) as E.
    simpl in E. rewrite E.
    by apply (mapM_getitem_fmap (fun c => fd_row c xs dx)).
  - destruct Hu as [?|Hu]; [done|].
    assert (is_Some (_grad_i_constraints (self_ w))
            \/ is_Some (_grad_e_constraints (self_ w))) as Hg.
    { destruct (_grad_i_constraints (self_ w)) eqn:Egi; [left; eauto|].
      destruct (_grad_e_constraints (self_ w)) eqn:Ege; [right; eauto|].
      exfalso. assert (numerical_path (self_ w) = true) as Hn'; [|congruence].
      by apply numerical_path_spec. }
    destruct (mapM_resolve_valid _ _ Hsel) as [ch Hch].
    pose proof (enumerate_values (fun g : list F -> list F => g xs)
                  (grad_constraints (self_ w))) as E.
    simpl in E.
    pose proof (mapM_getitem_fmap (fun g : list F -> list F => g xs) _ _ _ Hch) as Hget.
    assert (Np.uniform ((fun kg : nat * (list F -> list F) => kg.2 xs) <$> ch)) as Hu'.
    { intros r1 r2 H1 H2. apply Hu; by eapply mapM_getitem_elem. }
    eexists _, _, _, _.
    split.
    { rewrite (compute_grad_constraints_analytic x xs dx None w Hx Hc Hg _ eq_refl), E.
      by rewrite (array_uniform _ Hu). }
    split.
    { rewrite (compute_grad_constraints_analytic x xs dx (Some sel) w Hx Hc Hg ch Hch).
      by rewrite (array_uniform _ Hu'). }
    split; [rewrite length_fmap; symmetry; by eapply length_mapM|].
    done.
Qed.

Lemma mapM_resolve_range {A} (l : list A) :
  mapM (resolve l) (Z.of_nat <$> seq 0 (length l)) = Some (enumerate l).
Proof.
  apply mapM_Some. apply Forall2_same_length_lookup_2.
  - by rewrite length_fmap, length_seq, length_enumerate.
  - intros i z ka Hz Hka.
    rewrite list_lookup_fmap in Hz.
    destruct (seq 0 (length l) !! i) as [k|] eqn:Hk; simpl in Hz; [|done].
    apply lookup_seq in Hk as [-> Hlt]. injection Hz as <-.
    unfold enumerate in Hka. rewrite list_lookup_imap in Hka.
    destruct (l !! i) as [a|] eqn:Ha; simpl in Hka; [|done]. injection Hka as <-.
    unfold resolve. rewrite (norm_index_nat _ _ Hlt). simpl. by rewrite Ha.
Qed.

(** X9: the canonical ordering.  On a constrained problem
    [compute_constraints(x)] returns the values of the inequality
    constraints followed by the values of the equality constraints,
    [m + me] entries in all, and it is the same call, result and effects,
    as [compute_constraints(x, selection=list(range(m + me)))]. *)
Theorem constraints_ordering x xs w :
  heap w !! x = Some xs ->
  (m (self_ w) + me (self_ w))%nat <> 0%nat ->
  exists full,
    (compute_constraints x None w).1 = Ok full /\
    full = ((fun c => c xs) <$> or_empty (_i_constraints (self_ w)))
           ++ ((fun c => c xs) <$> or_empty (_e_constraints (self_ w))) /\
    length full = (m (self_ w) + me (self_ w))%nat /\
    compute_constraints x (Some (Z.of_nat <$> seq 0 (m (self_ w) + me (self_ w)))) w
    = compute_constraints x None w.
Proof.
  intros Hx Hc. eexists.
  rewrite (compute_constraints_run x xs None) by done. simpl.
  split; [done|]. split; [unfold constraints; by rewrite fmap_app|].
  split; [by rewrite length_fmap, length_constraints|].
  rewrite (compute_constraints_run x xs (Some _)) by done.
  rewrite <- length_constraints, mapM_resolve_range.
  pose proof (enumerate_values (fun c : list F -> F => c xs) (constraints (self_ w))) as E.
  simpl in E. by rewrite E.
Qed.

Lemma length_concat_imap {A B} (f : nat -> A -> list B) (l : list A) n :
  (forall i a, length (f i a) = n) ->
  length (concat (imap f l)) = (length l * n)%nat.
Proof.
  revert f. induction l as [|a l IH]; intros f Hf; [done|].
  rewrite imap_cons. simpl. rewrite length_app, Hf, IH; [lia|].
  intros i b. apply Hf.
Qed.

(** X10: the numerical Jacobian costs two evaluations of every evaluated
    constraint per design variable, and evaluates nothing else: neither the
    objective nor any gradient callable. *)
Theorem numerical_jacobian_cost x xs dx selection ch w :
  heap w !! x = Some xs ->
  numerical_path (self_ w) = true ->
  chosen (self_ w) selection = Some ch ->
  exists calls,
    trace (compute_grad_constraints x dx selection w).2 = trace w ++ calls /\
    length calls = (length xs * (2 * length ch))%nat /\
    Forall (fun c => exists k arg, c = CallConstraint k arg) calls.
Proof.
  intros Hx Hn Hch. apply numerical_path_spec in Hn as (Hc & Hgi & Hge).
  exists (fd_constraint_calls ch xs dx).
  rewrite (compute_grad_constraints_numerical x xs dx selection ch) by done. simpl.
  split; [done|]. split.
  - unfold fd_constraint_calls. apply length_concat_imap.
    intros i a. rewrite length_app, !length_fmap. lia.
  - unfold fd_constraint_calls. apply Forall_concat, Forall_forall. intros l Hl.
    apply elem_of_lookup_imap in Hl as (i & v & -> & _).
    apply Forall_app. split; apply Forall_fmap, Forall_forall; intros kc _; simpl; eauto.
Qed.

(** ** Sequences of calls *)

Import session.

Lemma set_evaluations_same self :
  set_evaluations self (grad_constraints_evaluations self) = self.
Proof. by destruct self. Qed.

Lemma set_evaluations_twice self a b :
  set_evaluations (set_evaluations self a) b = set_evaluations self b.
Proof. done. Qed.

Lemma numerical_path_set_evaluations self n :
  numerical_path (set_evaluations self n) = numerical_path self.
Proof. done. Qed.

(** What a call to [compute_grad_lagrange_function] does to the instance,
    on every store and outcome. *)
Lemma compute_grad_lagrange_function_self_full x lm w :
  self_ (compute_grad_lagrange_function x lm w).2 =
  if completes_numerical_jacobian (ComputeGradLagrangeFunction x lm) w
  then set_evaluations (self_ w) (grad_constraints_evaluations (self_ w) + 1)
  else self_ w.
Proof.
  unfold completes_numerical_jacobian.
  destruct (numerical_path (self_ w)) eqn:Hn; simpl;
    [|by apply compute_grad_lagrange_function_self].
  pose proof (compute_grad_objective_outcome x sstep w) as Ho.
  unfold compute_grad_lagrange_function, bind at 1.
  pose proof (stable_compute_grad_objective_array x sstep w) as Hs.
  destruct (compute_grad_objective_array x sstep w) as [[g|e] w1]; simpl in Hs;
    [|by rewrite Ho].
  destruct Ho as (ys & _ & ->). simpl.
  unfold bind at 1, get_self. rewrite Hs.
  rewrite self_bind_r by (intros; stable).
  pose proof Hn as Hc. apply numerical_path_spec in Hc as [Hc _].
  destruct (Nat.ltb_spec 0 (m (self_ w) + me (self_ w))) as [_|?]; [|lia].
  rewrite self_bind_r by (intros; apply stable_for_each; intros; stable).
  by rewrite compute_grad_constraints_self, Hs, Hn.
Qed.

Lemma perform_self c w :
  self_ (perform c w) =
  set_evaluations (self_ w)
    (grad_constraints_evaluations (self_ w)
     + if completes_numerical_jacobian c w then 1 else 0).
Proof.
  destruct c as [x|x dx|x sel|x dx sel|x lm|x lm]; simpl.
  - by rewrite stable_compute_objective, Z.add_0_r, set_evaluations_same.
  - by rewrite stable_compute_grad_objective, Z.add_0_r, set_evaluations_same.
  - by rewrite stable_compute_constraints, Z.add_0_r, set_evaluations_same.
  - rewrite compute_grad_constraints_self.
    destruct (_ && _); [done|]. by rewrite Z.add_0_r, set_evaluations_same.
  - by rewrite stable_compute_lagrange_function, Z.add_0_r, set_evaluations_same.
  - rewrite compute_grad_lagrange_function_self_full. simpl.
    destruct (_ && _); [done|]. by rewrite Z.add_0_r, set_evaluations_same.
Qed.

(** X11: the problem instance over a sequence of method calls.  Whatever
    the calls and their outcomes, every attribute but
    [grad_constraints_evaluations] keeps its value, and the counter ends at
    its first value plus the number of calls that ran the numerical Jacobian
    to its end: it never goes down, goes up by at most one per call, and
    does not move on a problem whose constraint gradients are not
    numerical. *)
Theorem instance_over_calls (cs : list (@method_call F)) w :
  self_ (perform_all cs w) =
    set_evaluations (self_ w)
      (grad_constraints_evaluations (self_ w) + Z.of_nat (numerical_jacobians cs w)) /\
  (numerical_jacobians cs w <= length cs)%nat /\
  (if numerical_path (self_ w) then True else numerical_jacobians cs w = 0%nat).
Proof.
  revert w. induction cs as [|c cs IH]; intros w.
  - simpl. rewrite Z.add_0_r, set_evaluations_same.
    split; [done|]. split; [done|]. by destruct (numerical_path _).
  - destruct (IH (perform c w)) as (IH1 & IH2 & IH3).
    change (perform_all (c :: cs) w) with (perform_all cs (perform c w)).
    rewrite perform_self in IH1, IH3. simpl in IH1, IH3.
    rewrite numerical_path_set_evaluations in IH3.
    split; [|split].
    + rewrite IH1, set_evaluations_twice. f_equal. simpl.
      destruct (completes_numerical_jacobian c w); lia.
    + simpl. destruct (completes_numerical_jacobian c w); lia.
    + destruct (numerical_path (self_ w)) eqn:Hn; [done|]. simpl. rewrite IH3.
      assert (completes_numerical_jacobian c w = false) as ->; [|done].
      destruct c; simpl; try done; by rewrite Hn.
Qed.

(** ** The arrays of the caller *)

Local Abbreviation writes_within D c := (@session.writes_within F D _ c).
Local Abbreviation keeps_arrays c := (@session.keeps_arrays F _ c).

Lemma writes_ret D {A} (a : A) : writes_within D (ret a).
Proof. by intros w b _. Qed.

Lemma writes_raise D {A} e : writes_within D (raise (A := A) e).
Proof. by intros w b _. Qed.

Lemma writes_lift D {A} (r : result A) : writes_within D (lift r).
Proof. by intros w b _. Qed.

Lemma writes_get_self D : writes_within D get_self.
Proof. by intros w b _. Qed.

Lemma writes_log D c : writes_within D (log c).
Proof. by intros w b _. Qed.

Lemma writes_incr_evaluations D : writes_within D incr_evaluations.
Proof. by intros w b _. Qed.

Lemma writes_load D a : writes_within D (load a).
Proof. intros w b _. unfold load. by destruct (heap w !! a). Qed.

Lemma writes_index D {A} (l : list A) i : writes_within D (index l i).
Proof. intros w b _. unfold index. by destruct (l !! i). Qed.

Lemma writes_store a xs : writes_within {[a]} (store a xs).
Proof.
  intros w b Hb. simpl. apply lookup_insert_ne. intros ->. by apply Hb, elem_of_singleton.
Qed.

Lemma writes_bind D {A B} (c : M A) (k : A -> M B) :
  writes_within D c -> (forall a, writes_within D (k a)) -> writes_within D (bind c k).
Proof.
  intros Hc Hk w b Hb. unfold bind. specialize (Hc w b Hb).
  destruct (c w) as [[a|e] w1]; simpl in *; [|done].
  by rewrite Hk.
Qed.

Lemma writes_for_each D {A S} (l : list A) (body : A -> S -> M S) :
  (forall a s, writes_within D (body a s)) -> forall s, writes_within D (for_each l body s).
Proof.
  intros Hb. induction l as [|a l IH]; intros s; simpl.
  - apply writes_ret.
  - apply writes_bind; [apply Hb | apply IH].
Qed.

Lemma writes_comprehension D {A B} (f : A -> M B) (l : list A) :
  (forall a, writes_within D (f a)) -> writes_within D (comprehension f l).
Proof.
  intros Hf. induction l as [|a l IH]; simpl.
  - apply writes_ret.
  - apply writes_bind; [apply Hf|]. intros b.
    apply writes_bind; [apply IH|]. intros bs. apply writes_ret.
Qed.

Create HintDb frame discriminated.
#[local] Hint Resolve writes_ret writes_raise writes_lift writes_get_self writes_log
  writes_incr_evaluations writes_load writes_index writes_store : frame.

Ltac frame :=
  repeat first
    [ progress eauto with frame
    | apply writes_bind; [|intros ?]
    | apply writes_for_each; intros ? ?
    | apply writes_comprehension; intros ?
    | match goal with |- writes_within _ (match ?o with _ => _ end) => destruct o end
    | match goal with |- writes_within _ (if ?b then _ else _) => destruct b end ].

(** The writes of lines 137, 139, 142, 226, 228 and 232 go to the array
    they name. *)
Lemma writes_set_at a i v : writes_within {[a]} (set_at a i v).
Proof. unfold set_at. frame. Qed.

Lemma writes_isub_at a i d : writes_within {[a]} (isub_at a i d).
Proof. unfold isub_at. frame. Qed.

Lemma writes_iadd_at a i d : writes_within {[a]} (iadd_at a i d).
Proof. unfold iadd_at. frame. Qed.

Lemma writes_get_at D a i : writes_within D (get_at a i).
Proof. unfold get_at. frame. Qed.

Lemma writes_np_size D a : writes_within D (np_size a).
Proof. unfold np_size. frame. Qed.

Lemma writes_select D {A} (l : list A) i : writes_within D (select l i).
Proof. unfold select. frame. Qed.

(** Calling a user callable writes to no array: the callables are functions
    of the content of their argument. *)
Lemma writes_call_objective D f a : writes_within D (call_objective f a).
Proof. unfold call_objective. frame. Qed.

Lemma writes_call_grad_objective D g a : writes_within D (call_grad_objective g a).
Proof. unfold call_grad_objective. frame. Qed.

Lemma writes_call_constraint D k c a : writes_within D (call_constraint k c a).
Proof. unfold call_constraint. frame. Qed.

Lemma writes_call_grad_constraint D k g a : writes_within D (call_grad_constraint k g a).
Proof. unfold call_grad_constraint. frame. Qed.

Lemma writes_read D r : writes_within D (read r).
Proof. unfold read. frame. Qed.

Lemma writes_truediv D a b : writes_within D (truediv a b).
Proof. unfold truediv. frame. Qed.

(** Line 277 on an array the method holds by value. *)
Lemma writes_iadd_into_own D ys b : writes_within D (iadd_into (Own ys) b).
Proof. unfold iadd_into. frame. Qed.

#[local] Hint Resolve writes_set_at writes_isub_at writes_iadd_at writes_get_at
  writes_np_size writes_select writes_call_objective writes_call_grad_objective
  writes_call_constraint writes_call_grad_constraint writes_read writes_truediv
  writes_iadd_into_own : frame.

Lemma writes_compute_objective D a : writes_within D (compute_objective a).
Proof. unfold compute_objective. frame. Qed.

Lemma writes_compute_constraints D a sel : writes_within D (compute_constraints a sel).
Proof. unfold compute_constraints. frame. Qed.

Lemma writes_compute_lagrange_function D a lm :
  writes_within D (compute_lagrange_function a lm).
Proof. unfold compute_lagrange_function. frame. Qed.

#[local] Hint Resolve writes_compute_objective writes_compute_constraints : frame.

Lemma keeps_of_writes {A} (c : M A) : writes_within ∅ c -> keeps_arrays c.
Proof. intros Hc w a _. apply Hc. apply not_elem_of_empty. Qed.

Lemma keeps_bind {A B} (c : M A) (k : A -> M B) :
  keeps_arrays c -> (forall a, keeps_arrays (k a)) -> keeps_arrays (bind c k).
Proof.
  intros Hc Hk w b Hb. unfold bind. specialize (Hc w b Hb).
  destruct (c w) as [[a|e] w1]; simpl in *; [|done].
  rewrite Hk; [done|]. by rewrite Hc.
Qed.

(** [x_local = np.copy(x)] followed by code that writes to [x_local] only:
    the copy sits at an address that held no array. *)
Lemma keeps_np_copy {B} x (k : nat -> M B) :
  (forall l, writes_within {[l]} (k l)) -> keeps_arrays (bind (np_copy x) k).
Proof.
  intros Hk w a [ys Ha]. destruct (heap w !! x) as [xs|] eqn:Hx.
  - rewrite (bind_ok _ _ _ _ _ (np_copy_run _ _ _ Hx)).
    assert (a <> fresh (dom (heap w))) as Hne by by eapply fresh_not_live.
    rewrite Hk by by rewrite elem_of_singleton.
    simpl. by apply lookup_insert_ne.
  - unfold np_copy, bind, load. by rewrite Hx.
Qed.

Lemma keeps_compute_grad_objective_array x dx :
  keeps_arrays (compute_grad_objective_array x dx).
Proof.
  unfold compute_grad_objective_array.
  apply keeps_bind; [apply keeps_of_writes; frame|]. intros self.
  destruct (_grad_objective self); [apply keeps_of_writes; frame|].
  apply keeps_bind; [apply keeps_of_writes; frame|]. intros n.
  apply keeps_np_copy. intros l.
  apply writes_bind; [apply writes_for_each; intros i grad; frame|].
  intros grad. frame.
Qed.

Lemma keeps_compute_grad_objective x dx : keeps_arrays (compute_grad_objective x dx).
Proof.
  unfold compute_grad_objective.
  apply keeps_bind; [apply keeps_compute_grad_objective_array|].
  intros r. apply keeps_of_writes. frame.
Qed.

Lemma keeps_compute_grad_constraints x dx selection :
  keeps_arrays (compute_grad_constraints x dx selection).
Proof.
  unfold compute_grad_constraints.
  apply keeps_bind; [apply keeps_of_writes; frame|]. intros self.
  destruct (_ =? _)%nat; [apply keeps_of_writes; frame|].
  destruct (_ || _); [apply keeps_of_writes; destruct selection; frame|].
  apply keeps_bind; [apply keeps_of_writes; frame|]. intros n.
  apply keeps_np_copy. intros l.
  apply writes_bind; [apply writes_for_each; intros i grad; frame|].
  intros grad. frame.
Qed.

(** A gradient callable that hands back arrays of its own making leaves the
    method with an array it holds by value. *)
Lemma compute_grad_objective_array_own x dx w r w1 :
  hands_back_new (self_ w) ->
  compute_grad_objective_array x dx w = (Ok r, w1) ->
  exists ys, r = Own ys.
Proof.
  unfold hands_back_new, compute_grad_objective_array, bind at 1, get_self.
  destruct (_grad_objective (self_ w)) as [g|].
  - intros Hnew E. unfold call_grad_objective in E.
    apply bind_inv in E as (xs & w2 & _ & E).
    apply bind_inv in E as ([] & w3 & _ & E).
    destruct (Hnew xs) as [ys Hys]. rewrite Hys in E.
    unfold ret in E. injection E as <- _. eauto.
  - intros _ E.
    apply bind_inv in E as (n & w2 & _ & E).
    apply bind_inv in E as (xl & w3 & _ & E).
    apply bind_inv in E as (grad & w4 & _ & E).
    unfold ret in E. injection E as <- _. eauto.
Qed.

(** A loop whose accumulator keeps an invariant that confines the writes of
    its body. *)
Lemma writes_for_each_inv D {A S} (Inv : S -> Prop) (l : list A) (body : A -> S -> M S) :
  (forall a s, Inv s -> writes_within D (body a s)) ->
  (forall a s w s' w', Inv s -> body a s w = (Ok s', w') -> Inv s') ->
  forall s, Inv s -> writes_within D (for_each l body s).
Proof.
  intros Hb Hi. induction l as [|a l IH]; intros s Hs; simpl.
  - apply writes_ret.
  - intros w b Hb'. unfold bind. pose proof (Hb a s Hs w b Hb') as H1.
    destruct (body a s w) as [[s'|e] w'] eqn:E; simpl in *; [|done].
    rewrite (IH s'); [done| |done]. by eapply Hi.
Qed.

(** The loop of lines 276-277 on an array the method holds by value. *)
Lemma writes_add_rows D (lm : list F) (J : list (list F)) n ys :
  writes_within D
    (for_range n (fun i grad => bind (index lm i) (fun lmi =>
                                bind (index J i) (fun row =>
                                iadd_into grad (Np.scale lmi row)))) (Own ys)).
Proof.
  unfold for_range.
  apply (writes_for_each_inv D (fun r : array_ref => exists ys : list F, r = Own ys));
    [| |by eauto].
  - intros i r [ys' ->]. frame.
  - intros i r w r' w' [ys' ->] E.
    apply bind_inv in E as (lmi & w1 & _ & E).
    apply bind_inv in E as (row & w2 & _ & E).
    simpl in E. apply bind_inv in E as (zs & w3 & _ & E).
    unfold ret in E. injection E as <- _. eauto.
Qed.

Lemma keeps_compute_grad_lagrange_function x lm w a :
  hands_back_new (self_ w) ->
  is_Some (heap w !! a) ->
  heap (compute_grad_lagrange_function x lm w).2 !! a = heap w !! a.
Proof.
  intros Hnew Ha. unfold compute_grad_lagrange_function, bind at 1.
  pose proof (keeps_compute_grad_objective_array x sstep w a Ha) as H1.
  pose proof (compute_grad_objective_array_own x sstep w) as Hown.
  destruct (compute_grad_objective_array x sstep w) as [[r|e] w1]; simpl in H1; [|done].
  destruct (Hown r w1 Hnew eq_refl) as [ys ->].
  rewrite <- H1.
  assert (is_Some (heap w1 !! a)) as Ha1 by by rewrite H1.
  match goal with |- heap (?c w1).2 !! a = _ => assert (keeps_arrays c) as Hk end.
  { apply keeps_bind; [apply keeps_of_writes; frame|]. intros self.
    apply keeps_bind; [|intros r; apply keeps_of_writes; frame].
    destruct (_ <? _)%nat; [|apply keeps_of_writes; frame].
    apply keeps_bind; [apply keeps_compute_grad_constraints|]. intros grad_g.
    apply keeps_of_writes, writes_add_rows. }
  by apply Hk.
Qed.

Lemma perform_keeps c w a :
  hands_back_new (self_ w) \/ adds_in_place c = false ->
  is_Some (heap w !! a) -> heap (perform c w) !! a = heap w !! a.
Proof.
  destruct c as [x|x dx|x sel|x dx sel|x lm|x lm]; simpl; intros Hc.
  - apply keeps_of_writes, writes_compute_objective.
  - apply keeps_compute_grad_objective.
  - apply keeps_of_writes, writes_compute_constraints.
  - apply keeps_compute_grad_constraints.
  - apply keeps_of_writes, writes_compute_lagrange_function.
  - destruct Hc as [Hnew|?]; [|done]. by apply keeps_compute_grad_lagrange_function.
Qed.

(** X12: which calls can write to an array of the caller.  Line 277 adds in
    place into the array that the objective-gradient callable handed back;
    no other line writes to an array the method did not make.  So over any
    sequence of method calls, with any arguments and whatever each call
    returns or raises, every array that existed before the calls holds the
    values it held, provided the objective gradient, if there is one, hands
    back arrays of its own making, or the sequence has no call to
    [compute_grad_lagrange_function]. *)
Theorem arrays_over_calls (cs : list (@method_call F)) w :
  hands_back_new (self_ w) \/ Forall (fun c => adds_in_place c = false) cs ->
  heap w ⊆ heap (perform_all cs w).
Proof.
  intros Hc. apply map_subseteq_spec. revert w Hc.
  induction cs as [|c cs IH]; intros w Hc a xs Ha; [done|].
  change (perform_all (c :: cs) w) with (perform_all cs (perform c w)).
  apply IH.
  - destruct Hc as [Hnew|Hcs]; [left|right].
    + by rewrite perform_self.
    + by apply Forall_cons in Hcs as [_ ?].
  - rewrite perform_keeps; [done| |by eauto].
    destruct Hc as [Hnew|Hcs]; [by left|right].
    by apply Forall_cons in Hcs as [? _].
Qed.

(** ** Multiplier vectors that are too short *)

(** X13: [compute_lagrange_function] and the length of [lm].  For every
    multiplier vector the call evaluates the objective once and then, on a
    constrained problem, every constraint once and in order, all at [x],
    and changes neither the instance nor an array.  It returns the weighted
    sum when [lm] has at least [m + me] entries; with fewer it raises
    [IndexError], and only after these evaluations. *)
Theorem lagrange_multipliers_length x xs lm w :
  heap w !! x = Some xs ->
  compute_lagrange_function x lm w =
  (if decide (m (self_ w) + me (self_ w) <= length lm)%nat
   then Ok (weighted_sum (_objective (self_ w) xs) lm
              ((fun c => c xs) <$> constraints (self_ w)))
   else Raise IndexError,
   World (self_ w) (heap w)
         (trace w ++ CallObjective xs
                     :: imap (fun k _ => CallConstraint k xs) (constraints (self_ w)))).
Proof.
  intros Hx. unfold compute_lagrange_function, bind at 1, get_self.
  rewrite (bind_ok _ _ _ _ _ (call_objective_run _ _ _ _ Hx)).
  destruct (Nat.ltb_spec 0 (m (self_ w) + me (self_ w))) as [Hc|Hc].
  - erewrite bind_ok; cycle 1.
    { apply (compute_constraints_run x xs None); simpl; [done|lia]. }
    simpl.
    assert (forall r : result F,
              (r, World (self_ w) (heap w)
                    ((trace w ++ [CallObjective xs])
                     ++ ((fun kc : nat * (list F -> F) => CallConstraint kc.1 xs)
                           <$> enumerate (constraints (self_ w))))) =
              (r, World (self_ w) (heap w)
                    (trace w ++ CallObjective xs
                       :: imap (fun k _ => CallConstraint k xs) (constraints (self_ w)))))
      as Hw.
    { intros r. rewrite <- app_assoc. unfold enumerate. by rewrite fmap_imap. }
    destruct (decide (m (self_ w) + me (self_ w) <= length lm)%nat) as [Hlm|Hlm].
    + match goal with |- context [for_range ?n _ ?f0 ?w0] =>
        pose proof (accumulate_run lm ((fun c => c xs) <$> constraints (self_ w))
                      (fun acc a b => ret (sadd acc (smul a b)))
                      (fun acc a b => sadd acc (smul a b)) (fun _ => True) n f0 w0) as E
      end.
      rewrite E; [|done|by rewrite length_fmap, length_constraints|done|done].
      rewrite Hw. f_equal. f_equal. unfold weighted_sum. f_equal. apply take_ge.
      rewrite length_zip_with, length_fmap, length_constraints. lia.
    + match goal with |- context [for_range ?n _ ?f0 ?w0] =>
        pose proof (accumulate_short lm ((fun c => c xs) <$> constraints (self_ w))
                      (fun acc a b => ret (sadd acc (smul a b)))
                      (fun acc a b => sadd acc (smul a b)) (fun _ => True) n f0 w0) as E
      end.
      rewrite E; [|lia|rewrite length_fmap, length_constraints; lia|done|done].
      apply Hw.
  - assert (constraints (self_ w) = []) as ->.
    { apply length_zero_iff_nil. rewrite length_constraints. lia. }
    destruct (decide (m (self_ w) + me (self_ w) <= length lm)%nat) as [_|?]; [|lia].
    simpl. unfold weighted_sum. by rewrite zip_with_nil_r.
Qed.

(** X14: [compute_grad_lagrange_function] and the length of [lm].  With
    fewer than [m + me] multipliers the call never returns, whatever the
    problem, the design vector and the store.  On a problem without any
    analytic gradient both finite-difference loops run first, for every
    [lm]: the counter goes up by one, [x] is as before, and then the sum is
    returned, or [IndexError] is raised when [lm] is too short; a failed
    call has counted. *)
Theorem grad_lagrange_multipliers_length :
  (forall x lm w,
     (length lm < m (self_ w) + me (self_ w))%nat ->
     is_ok (compute_grad_lagrange_function x lm w).1 = false) /\
  (forall x xs lm w,
     heap w !! x = Some xs ->
     _grad_objective (self_ w) = None ->
     numerical_path (self_ w) = true ->
     exists w',
       compute_grad_lagrange_function x lm w =
         (if decide (m (self_ w) + me (self_ w) <= length lm)%nat
          then Ok (weighted_rows (fd_gradient (_objective (self_ w)) xs sstep) lm
                     ((fun c => fd_row c xs sstep) <$> constraints (self_ w)))
          else Raise IndexError, w') /\
       self_ w' = set_evaluations (self_ w) (grad_constraints_evaluations (self_ w) + 1) /\
       heap w' !! x = Some xs /\
       trace w' = trace w ++ fd_calls xs sstep
                  ++ fd_constraint_calls (enumerate (constraints (self_ w))) xs sstep).
Proof.
  split.
  - intros x lm w Hlm. unfold compute_grad_lagrange_function, bind at 1.
    pose proof (stable_compute_grad_objective_array x sstep w) as Hs.
    destruct (compute_grad_objective_array x sstep w) as [[g|e] w1]; simpl in Hs; [|done].
    unfold bind at 1, get_self. rewrite Hs.
    destruct (Nat.ltb_spec 0 (m (self_ w) + me (self_ w))) as [_|?]; [|lia].
    apply is_ok_bind_false. unfold bind at 1.
    destruct (compute_grad_constraints x sstep None w1) as [[J|e] w2]; [|done].
    apply (for_each_fails _ _ (length lm)).
    + apply elem_of_seq. lia.
    + intros s w'. unfold bind at 1, index. by rewrite lookup_ge_None_2.
  - intros x xs lm w Hx Hg Hn. apply numerical_path_spec in Hn as (Hc & Hgi & Hge).
    pose proof (compute_grad_objective_array_numerical x xs sstep w Hx Hg sstep_divides)
      as E0.
    set (w1 := World (self_ w) (<[fresh (dom (heap w)) := xs]> (heap w))
                     (trace w ++ fd_calls xs sstep)) in *.
    assert (heap w1 !! x = Some xs) as Hx1.
    { simpl. rewrite lookup_insert_ne; [done|]. apply not_eq_sym. by eapply fresh_not_live. }
    pose proof (compute_grad_constraints_numerical x xs sstep None _ w1 Hx1 Hc Hgi Hge eq_refl)
      as EJ.
    eexists. split.
    { rewrite (compute_grad_lagrange_function_run x lm w _ _ _ _ E0 Hc EJ).
      - destruct (decide (m (self_ w) + me (self_ w) <= length lm)%nat) as [_|?]; [|done].
        pose proof (enumerate_values (fun c : list F -> F => fd_row c xs sstep)
                      (constraints (self_ w))) as E.
        simpl in E. change (self_ w1) with (self_ w). by rewrite E.
      - rewrite length_fmap, length_enumerate, length_constraints.
        by change (self_ w1) with (self_ w).
      - apply Forall_fmap, Forall_forall. intros [k c] _. simpl.
        unfold fd_row, fd_gradient. by rewrite !length_imap. }
    simpl. split; [done|]. split.
    + rewrite lookup_insert_ne; [done|]. apply not_eq_sym.
      eapply fresh_not_live. exact Hx1.
    + by rewrite <- app_assoc.
Qed.

(** ** Design vectors without entries *)

(** X15: a design vector of size 0 on the numerical paths.  Neither loop
    runs: the objective gradient is empty and no objective is evaluated;
    the Jacobian has one empty row per constraint, or per entry of the
    selection, no constraint is evaluated and the counter goes up by one.
    The selection is not looked at: indices that raise [IndexError] for a
    non-empty [x] are accepted here. *)
Theorem empty_design_vector :
  (forall x dx w,
     heap w !! x = Some [] ->
     _grad_objective (self_ w) = None ->
     compute_grad_objective x dx w =
     (Ok [], World (self_ w) (<[fresh (dom (heap w)) := []]> (heap w)) (trace w))) /\
  (forall x dx selection w,
     heap w !! x = Some [] ->
     numerical_path (self_ w) = true ->
     compute_grad_constraints x dx selection w =
     (Ok (replicate (match selection with
                     | None => (m (self_ w) + me (self_ w))%nat
                     | Some sel => length sel
                     end) []),
      World (set_evaluations (self_ w) (grad_constraints_evaluations (self_ w) + 1))
            (<[fresh (dom (heap w)) := []]> (heap w)) (trace w))).
Proof.
  split.
  - intros x dx w Hx Hg. by apply compute_grad_objective_empty.
  - intros x dx selection w Hx Hn. apply numerical_path_spec in Hn as (Hc & Hgi & Hge).
    unfold compute_grad_constraints, bind at 1, get_self.
    destruct (Nat.eqb_spec (m (self_ w) + me (self_ w)) 0) as [E|_]; [done|].
    rewrite Hgi, Hge. simpl.
    rewrite (bind_ok _ _ _ _ _ (np_size_run _ _ _ Hx)).
    rewrite (bind_ok _ _ _ _ _ (np_copy_run _ _ _ Hx)).
    by destruct selection.
Qed.

(** ** The Lagrange gradient from analytic gradients *)

(** X16: on a constrained problem whose analytic objective gradient hands
    back an array [g0] of its own making at [x], with as many constraint
    gradients as constraints, each returning a vector of the length of
    [g0], [compute_grad_lagrange_function] returns [g0] plus the constraint
    gradients scaled by [lm[i]], added one after the other.  It evaluates
    the gradient callables once each, never the objective or a constraint,
    makes no copy of [x], writes to no array of the store and leaves the
    counter alone. *)
Theorem grad_lagrange_analytic x xs lm g g0 w :
  heap w !! x = Some xs ->
  _grad_objective (self_ w) = Some g ->
  g xs = New g0 ->
  (m (self_ w) + me (self_ w))%nat <> 0%nat ->
  length (grad_constraints (self_ w)) = (m (self_ w) + me (self_ w))%nat ->
  Forall (fun gc => length (gc xs) = length g0) (grad_constraints (self_ w)) ->
  (m (self_ w) + me (self_ w) <= length lm)%nat ->
  compute_grad_lagrange_function x lm w =
  (Ok (weighted_rows g0 lm ((fun gc => gc xs) <$> grad_constraints (self_ w))),
   World (self_ w) (heap w)
         (trace w ++ CallGradObjective xs
                     :: imap (fun k _ => CallGradConstraint k xs) (grad_constraints (self_ w)))).
Proof.
  intros Hx Hg Hnew Hc Hlen Hrows Hlm.
  assert (is_Some (_grad_i_constraints (self_ w))
          \/ is_Some (_grad_e_constraints (self_ w))) as Hs.
  { destruct (_grad_i_constraints (self_ w)) eqn:Egi; [left; eauto|].
    destruct (_grad_e_constraints (self_ w)) eqn:Ege; [right; eauto|].
    exfalso. unfold grad_constraints in Hlen. rewrite Egi, Ege in Hlen.
    simpl in Hlen. lia. }
  pose proof (compute_grad_objective_array_analytic x xs sstep g w Hx Hg) as E0.
  rewrite Hnew in E0.
  pose proof (compute_grad_constraints_analytic x xs sstep None
                (World (self_ w) (heap w) (trace w ++ [CallGradObjective xs]))
                Hx Hc Hs _ eq_refl) as EJ.
  pose proof (enumerate_values (fun gc : list F -> list F => gc xs)
                (grad_constraints (self_ w))) as E.
  simpl in E, EJ. rewrite E in EJ.
  rewrite array_uniform in EJ by (eapply uniform_lengths; by apply Forall_fmap).
  rewrite (compute_grad_lagrange_function_run x lm w _ _ _ _ E0 Hc EJ).
  - destruct (decide (m (self_ w) + me (self_ w) <= length lm)%nat) as [_|?]; [|done].
    f_equal. f_equal. rewrite <- app_assoc. simpl. f_equal. f_equal.
    unfold enumerate. by rewrite fmap_imap.
  - by rewrite length_fmap.
  - by apply Forall_fmap.
Qed.

(** ** The two finite-difference loops side by side *)

Lemma drifted_restored xs dx i :
  Forall (fun v => stepped_back dx v = v) xs -> drifted xs dx i = xs.
Proof.
  intros Hr. unfold drifted.
  assert (stepped_back dx <$> take i xs = take i xs) as ->.
  { rewrite <- (list_fmap_id (take i xs)) at 2. apply Forall_fmap_ext. by apply Forall_take. }
  apply take_drop.
Qed.

(** X17: the loop of lines 225-232 against the loop of lines 136-142.  The
    first restores [x_local[i]] by subtracting [dx] again, the second by
    reassigning [x[i]].  When stepping an entry by [-dx], [+2*dx], [-dx]
    gives the entry back, for every entry of [x], and the division by
    [2*dx] does not raise, the row of the numerical Jacobian for a
    constraint [c] is what [compute_grad_objective] returns on a problem
    with [c] as its objective.  Exact arithmetic meets the first condition;
    binary64 does not in general, and the two then differ. *)
Theorem jacobian_row_is_gradient x xs dx k c w w' :
  heap w !! x = Some xs ->
  numerical_path (self_ w) = true ->
  constraints (self_ w) !! k = Some c ->
  heap w' !! x = Some xs ->
  _grad_objective (self_ w') = None ->
  _objective (self_ w') = c ->
  Forall (fun v => stepped_back dx v = v) xs ->
  raises_on (smul stwo dx) = false ->
  exists J grad,
    (compute_grad_constraints x dx None w).1 = Ok J /\
    (compute_grad_objective x dx w').1 = Ok grad /\
    J !! k = Some grad.
Proof.
  intros Hx Hn Hk Hx' Hg Hc Hr Hdx. apply numerical_path_spec in Hn as (Hcon & Hgi & Hge).
  eexists _, _.
  rewrite (compute_grad_constraints_numerical x xs dx None _ w Hx Hcon Hgi Hge eq_refl).
  rewrite (compute_grad_objective_numerical x xs dx w' Hx' Hg Hdx). simpl.
  split; [done|]. split; [done|].
  rewrite list_lookup_fmap. unfold enumerate. rewrite list_lookup_imap, Hk. simpl. f_equal.
  unfold fd_row, fd_gradient. rewrite Hc. apply imap_ext. intros i v _.
  by rewrite drifted_restored.
Qed.

End ProblemFacts.

(** * Properties of [OptimisationResult] *)

Section ResultFacts.
Context {F : Type}.
Import optimisation_result.

Implicit Types (r : @OptimisationResult F) (a : @assignment F).

Lemma assignments_frozen r ops :
  assignments r ops = (replicate (length ops) (Raise FrozenInstanceError), r).
Proof.
  induction ops as [|a ops IH]; simpl; [done|].
  unfold __setattr__. simpl. by rewrite IH.
Qed.

(** C8: an [OptimisationResult] cannot be changed once constructed.  An
    assignment to any of its eight fields raises [FrozenInstanceError] and
    leaves the instance as it was; after any run of such attempts on a
    freshly constructed result, every attempt has raised and each field
    still holds what the constructor was given ([state] its default
    [UNDEFINED] when none was given). *)
Theorem result_is_frozen
    (iteration_ : Z) (x_ : list F) (state_ : option OptimiserState) (objective_ : option F)
    (lm_ i_constraints_ e_constraints_ step_ : option (list F))
    (ops : list (@assignment F)) :
  let r := __init__ iteration_ x_ state_ objective_ lm_ i_constraints_ e_constraints_ step_ in
  (forall r' a, __setattr__ r' a = (Raise FrozenInstanceError, r')) /\
  Forall (fun o => o = Raise FrozenInstanceError) (assignments r ops).1 /\
  length (assignments r ops).1 = length ops /\
  (assignments r ops).2 = r /\
  iteration (assignments r ops).2 = iteration_ /\
  x (assignments r ops).2 = x_ /\
  state (assignments r ops).2 = default UNDEFINED state_ /\
  objective (assignments r ops).2 = objective_ /\
  lm (assignments r ops).2 = lm_ /\
  i_constraints (assignments r ops).2 = i_constraints_ /\
  e_constraints (assignments r ops).2 = e_constraints_ /\
  step (assignments r ops).2 = step_.
Proof.
  intros r. rewrite assignments_frozen. simpl.
  split; [done|]. split; [|by rewrite length_replicate].
  apply Forall_forall. intros o Ho. by apply elem_of_replicate in Ho as [-> _].
Qed.

End ResultFacts.

(** * The methods on the sample problems *)

Section Samples.
Import optimisation_problem sample.

(** ** Arithmetic *)

(** Exact rational arithmetic has the two cancellation laws. *)
#[export] Instance exact_step : ExactStep Qc.
Proof.
  split; intros v d; simpl.
  - change (Q2Qc 2) with (1 + 1)%Qc. ring.
  - ring.
Qed.

(** binary64 does not: stepping [1.0] by [-1e-6], [+2e-6], [-1e-6] ends one
    unit in the last place below [1.0]. *)
Lemma binary64_stepped_back_rounds :
  stepped_back (F := float) sstep 1%float = 0x1.fffffffffffffp-1%float.
Proof. vm_compute. reflexivity. Qed.

Lemma binary64_not_exact : ~ ExactStep float.
Proof.
  intros HE. pose proof (stepped_back_exact HE sstep 1%float) as E.
  rewrite binary64_stepped_back_rounds in E.
  apply (f_equal (fun v => PrimFloat.eqb v 1%float)) in E.
  vm_compute in E. discriminate.
Qed.

(** ** Where the code departs from the claims *)

(** C1 on the problem [mixed] (an inequality with its gradient, an equality
    without): the test of line 213 sends the call down the analytic branch,
    which returns the single supplied gradient as a Jacobian of one row,
    while the problem has [m + me = 2] constraints. *)
Theorem analytic_jacobian_of_mixed :
  compute_grad_constraints x0 sstep None (start mixed) =
    (Ok [[(-1)%float; 0%float]],
     World mixed {[ x0 := xs0 ]} [CallGradConstraint 0 xs0]) /\
  (m mixed + me mixed)%nat = 2%nat.
Proof. split; vm_compute; reflexivity. Qed.

(** C6 on the same problem, with two multipliers: the objective value plus
    the weighted constraint values is returned, but the gradient of the
    Lagrange function is not, because line 277 reads row 1 of a
    Jacobian that has one row. *)
Theorem grad_lagrange_of_mixed :
  (compute_lagrange_function x0 [0.5%float; 0.25%float] (start mixed)).1 = Ok 4.75%float /\
  (compute_grad_lagrange_function x0 [0.5%float; 0.25%float] (start mixed)).1
    = Raise IndexError /\
  (m mixed + me mixed <= length [0.5%float; 0.25%float])%nat.
Proof. split; [|split]; vm_compute; reflexivity. Qed.

(** C7 does not hold: a list of two inequality constraints with a list of
    one gradient is accepted by the constructor. *)
Lemma init_accepts_mismatch :
  ~ (forall (i_constraints : list (list float -> float))
            (grad_i_constraints : list (list float -> list float)),
       length i_constraints <> length grad_i_constraints ->
       exists e,
         optimisation_problem.__init__ sphere None None None
           (Some i_constraints) (Some grad_i_constraints) None None None = Raise e).
Proof.
  intros Hclaim.
  destruct (Hclaim [c_low; c_high] [grad_c_low]) as [e He]; [simpl; lia|].
  discriminate He.
Qed.

(** C2 does not hold as it is worded: in binary64 an entry of the numerical
    gradient need not be the central difference of the claim.  For the
    sphere at [x = [3.0, 2.0]] and the default step, [(3 - dx) + 2*dx] and
    [3 + dx] round to different numbers, and entry 0 differs. *)
Lemma central_difference_not_returned :
  ~ (forall (x : nat) (xs : list float) (dx : float) (w : world),
       heap w !! x = Some xs ->
       _grad_objective (self_ w) = None ->
       (compute_grad_objective x dx w).1 =
       Ok (imap (central_difference (_objective (self_ w)) xs dx) xs)).
Proof.
  intros Hclaim.
  specialize (Hclaim x0 [3%float; 2%float] sstep
                (World numerical {[ x0 := [3%float; 2%float] ]} []) eq_refl eq_refl).
  apply (f_equal (fun r => match r with
                           | Ok (v :: _) => PrimFloat.eqb v 0x1.7ffffffefe4p+2%float
                           | _ => false
                           end)) in Hclaim.
  vm_compute in Hclaim. discriminate.
Qed.

(** C9 does not hold as it is worded: the copy on which the constraint loop
    works is not restored after each coordinate.  On [numerical] at
    [x = [1.0, 2.0]] its first entry ends one unit in the last place below
    [1.0]. *)
Lemma working_copy_not_restored :
  ~ (forall (x : nat) (xs : list float) (dx : float) (selection : option (list Z))
            (w : world),
       heap w !! x = Some xs ->
       numerical_path (self_ w) = true ->
       is_Some (chosen (self_ w) selection) ->
       exists x_local,
         heap w !! x_local = None /\
         heap (compute_grad_constraints x dx selection w).2 = <[x_local := xs]> (heap w)).
Proof.
  intros Hclaim.
  destruct (Hclaim x0 xs0 sstep None (start numerical) eq_refl eq_refl)
    as (xl & Hnone & E).
  { vm_compute. eauto. }
  rewrite (compute_grad_constraints_numerical x0 xs0 sstep None
             [(0%nat, c_low); (1%nat, c_high); (2%nat, c_diag)] (start numerical)
             eq_refl) in E; [|vm_compute; lia|reflexivity|reflexivity|reflexivity].
  cbn [snd heap] in E.
  pose proof (f_equal (fun h => h !! xl) E) as Hl. cbn beta in Hl.
  rewrite (lookup_insert_eq _ xl xs0) in Hl.
  destruct (decide (xl = fresh (dom (heap (start numerical))))) as [->|Hne].
  - rewrite lookup_insert_eq in Hl.
    apply (f_equal (fun o => match o with
                             | Some (v :: _) => PrimFloat.eqb v 1%float
                             | _ => false
                             end)) in Hl.
    vm_compute in Hl. discriminate.
  - rewrite lookup_insert_ne in Hl by done. rewrite Hnone in Hl. discriminate.
Qed.

(** ** The theorems at work *)

Lemma x0_live p : heap (start p) !! x0 = Some xs0.
Proof. vm_compute. reflexivity. Defined.

(** C2 on [analytic], on [numerical], where the first entry of [x] meets
    the rounding condition, and on [numerical] with a zero step. *)
Lemma compute_grad_objective_spec_witness :
  (compute_grad_objective x0 sstep (start analytic)).1 = Ok [2%float; 4%float] /\
  (exists grad,
     (compute_grad_objective x0 sstep (start numerical)).1 = Ok grad /\
     length grad = 2%nat /\
     grad !! 0%nat = Some (central_difference sphere xs0 sstep 0 1%float)) /\
  (compute_grad_objective x0 0%float (start numerical)).1 = Raise ZeroDivisionError.
Proof.
  split; [|split].
  - exact (compute_grad_objective_spec x0 xs0 sstep (start analytic) (x0_live analytic)).
  - pose proof (compute_grad_objective_spec x0 xs0 sstep (start numerical)
                  (x0_live numerical)) as Hw.
    change (exists grad,
              (compute_grad_objective x0 sstep (start numerical)).1 = Ok grad /\
              length grad = length xs0 /\
              forall i v, xs0 !! i = Some v ->
                grad !! i =
                  Some (sdiv (ssub (sphere (<[i := sadd (ssub v sstep) (smul stwo sstep)]> xs0))
                                   (sphere (<[i := ssub v sstep]> xs0)))
                             (smul stwo sstep)) /\
                (sadd (ssub v sstep) (smul stwo sstep) = sadd v sstep ->
                 grad !! i = Some (central_difference sphere xs0 sstep i v))) in Hw.
    destruct Hw as (grad & E & L & Hi).
    exists grad. split; [exact E|]. split; [exact L|].
    destruct (Hi 0%nat 1%float eq_refl) as [_ Hc]. apply Hc. reflexivity.
  - exact (compute_grad_objective_spec x0 xs0 0%float (start numerical) (x0_live numerical)).
Defined.

(** C3 on [unconstrained]. *)
Lemma unconstrained_constraints_raise_witness :
  compute_constraints x0 (Some [0]) (start unconstrained)
    = (Raise (Exception "Unconstrained problem."), start unconstrained) /\
  compute_grad_constraints x0 sstep (Some [0]) (start unconstrained)
    = (Raise (Exception "Unconstrained problem."), start unconstrained).
Proof.
  apply (unconstrained_constraints_raise x0 sstep (Some [0]) (start unconstrained));
    reflexivity.
Defined.

(** C5 on [numerical] with the selection [[2, 0]]. *)
Lemma compute_constraints_selection_witness :
  exists full v,
    (compute_constraints x0 None (start numerical)).1 = Ok full /\
    (compute_constraints x0 (Some [2; 0]) (start numerical)).1 = Ok v /\
    length v = 2%nat /\
    exists f2 f0, full !! 2%nat = Some f2 /\ full !! 0%nat = Some f0 /\ v = [f2; f0].
Proof.
  destruct (compute_constraints_selection x0 xs0 [2; 0] (start numerical))
    as (full & v & w1 & w2 & E1 & E2 & L & _ & _ & H20).
  - apply x0_live.
  - simpl. lia.
  - repeat constructor; simpl; lia.
  - exists full, v. rewrite E1, E2. repeat split; [exact L|]. by apply H20.
Defined.

(** C9 on [numerical], both loops. *)
Lemma finite_difference_frame_witness :
  heap (compute_grad_objective x0 sstep (start numerical)).2 !! x0 = Some xs0 /\
  self_ (compute_grad_objective x0 sstep (start numerical)).2 = numerical /\
  heap (compute_grad_constraints x0 sstep (Some [2; 0]) (start numerical)).2 !! x0
    = Some xs0 /\
  self_ (compute_grad_constraints x0 sstep (Some [2; 0]) (start numerical)).2
    = set_evaluations numerical 1.
Proof.
  destruct (finite_difference_frame (F := float)) as [Hobj Hcon].
  destruct (Hobj x0 xs0 sstep (start numerical)) as (Hx & _ & Hs & _).
  { apply x0_live. }
  { reflexivity. }
  destruct (Hcon x0 xs0 sstep (Some [2; 0]) (start numerical)) as (_ & Hx' & _ & Hs' & _).
  { apply x0_live. }
  { reflexivity. }
  { vm_compute. eauto. }
  repeat split; assumption.
Defined.

(** C10 on [unconstrained] with the empty multiplier vector. *)
Lemma lagrange_unconstrained_witness :
  (compute_lagrange_function x0 [] (start unconstrained)).1 = Ok 5%float /\
  compute_grad_lagrange_function x0 [] (start unconstrained)
    = compute_grad_objective x0 sstep (start unconstrained).
Proof.
  destruct (lagrange_unconstrained x0 [] (start unconstrained)) as (_ & E & Hv);
    [reflexivity|reflexivity|].
  split; [|exact E].
  destruct (Hv xs0 (x0_live unconstrained)) as [Ev _]. exact Ev.
Defined.

(** X3 on [analytic], whose three gradients have
    length 2, and on [ragged], whose two gradients have lengths 2 and 1. *)
Lemma analytic_jacobian_rows_witness :
  (compute_grad_constraints x0 sstep None (start analytic)).1
    = Ok [grad_c_low xs0; grad_c_high xs0; grad_c_diag xs0] /\
  (compute_grad_constraints x0 sstep None (start ragged)).1 = Raise ValueError.
Proof.
  split.
  - destruct (analytic_jacobian_rows x0 xs0 sstep (start analytic))
      as (r & rows & E & Hrows & Hu & _).
    + apply x0_live.
    + vm_compute. lia.
    + left. simpl. eauto.
    + rewrite E, Hu; rewrite Hrows; [reflexivity|].
      apply (uniform_lengths _ 2). repeat constructor.
  - destruct (analytic_jacobian_rows x0 xs0 sstep (start ragged))
      as (r & rows & E & Hrows & _ & Hr & _).
    + apply x0_live.
    + vm_compute. lia.
    + left. simpl. eauto.
    + rewrite E, Hr; [reflexivity|]. rewrite Hrows. intros Hu.
      specialize (Hu [(-1)%float; 0%float] [1%float]).
      simpl in Hu. discriminate Hu; [left|right; left].
Defined.

(** X1 on [numerical]. *)
Lemma compute_lagrange_function_value_witness :
  (compute_lagrange_function x0 [0.5%float; 0.25%float; 2%float] (start numerical)).1
  = Ok (weighted_sum 5%float [0.5%float; 0.25%float; 2%float]
          [0%float; (-1)%float; (-1)%float]).
Proof.
  refine (compute_lagrange_function_value x0 xs0 [0.5%float; 0.25%float; 2%float]
            (start numerical) (x0_live numerical) _).
  vm_compute. lia.
Defined.

(** X2 on [numerical]. *)
Lemma grad_lagrange_numerical_witness :
  is_ok (compute_grad_lagrange_function x0 [0.5%float; 0.25%float; 2%float]
           (start numerical)).1 = true.
Proof.
  rewrite (grad_lagrange_numerical x0 xs0 [0.5%float; 0.25%float; 2%float]
             (start numerical) (x0_live numerical)).
  - reflexivity.
  - reflexivity.
  - reflexivity.
  - vm_compute. lia.
Defined.

(** X4 on [numerical] with the selection [[2, 0]]. *)
Lemma numerical_jacobian_entries_witness :
  exists J,
    (compute_grad_constraints x0 sstep (Some [2; 0]) (start numerical)).1 = Ok J /\
    length J = 2%nat.
Proof.
  destruct (numerical_jacobian_entries x0 xs0 sstep (Some [2; 0])
              [(2%nat, c_diag); (0%nat, c_low)] (start numerical))
    as (J & E & L & _).
  - apply x0_live.
  - reflexivity.
  - reflexivity.
  - exists J. split; [exact E | exact L].
Defined.

(** X5 on [numerical]. *)
Lemma numerical_gradient_cost_witness :
  exists calls,
    trace (compute_grad_objective x0 sstep (start numerical)).2 = calls /\
    length calls = 4%nat.
Proof.
  destruct (numerical_gradient_cost x0 xs0 sstep (start numerical))
    as (calls & E & L & _).
  - apply x0_live.
  - reflexivity.
  - reflexivity.
  - exists calls. split; [exact E | exact L].
Defined.

(** ** The model on binary64

    The values below are the model's, evaluated in IEEE 754 double
    precision with round to nearest, the arithmetic of Python floats. *)

Example numerical_gradient_of_sphere :
  (compute_grad_objective x0 sstep (start numerical)).1
  = Ok [0x1.0000000099bp+1%float; 0x1.000000001f9ep+2%float].
Proof. vm_compute. reflexivity. Qed.

Example numerical_jacobian_of_sample :
  (compute_grad_constraints x0 sstep None (start numerical)).1
  = Ok [[(-0x1.ffffffffc52ap-1)%float; 0%float];
        [0%float; 0x1.000000001f9ep+0%float];
        [0x1.000000001f9ep+0%float; (-0x1.ffffffffc52ap-1)%float]].
Proof. vm_compute. reflexivity. Qed.

(** After the constraint loop the working copy (at address 1) is one unit
    in the last place away from [x] in its first entry; [x] itself is
    untouched. *)
Example working_copy_after_constraint_loop :
  let out := compute_grad_constraints x0 sstep None (start numerical) in
  heap out.2 !! 1%nat = Some [0x1.fffffffffffffp-1%float; 2%float] /\
  heap out.2 !! x0 = Some xs0 /\
  grad_constraints_evaluations (self_ out.2) = 1.
Proof. vm_compute. repeat split. Qed.

Example grad_lagrange_of_analytic :
  (compute_grad_lagrange_function x0 [0.5%float; 0.25%float; 2%float] (start analytic)).1
  = Ok [3.5%float; 2.25%float].
Proof. vm_compute. reflexivity. Qed.

(** X6 on [numerical]: index 3 is out of range for three constraints. *)
Lemma selection_out_of_range_witness :
  compute_constraints x0 (Some [0; 3; 1]) (start numerical)
  = (Raise IndexError, start numerical).
Proof.
  apply (selection_out_of_range x0 [0; 3; 1] (start numerical)).
  - vm_compute. lia.
  - apply Exists_cons_tl, Exists_cons_hd. vm_compute. intros [_ Hlt]. discriminate Hlt.
Defined.

(** X7 on [analytic] (the gradient of index 0 is evaluated, index 3 is out
    of range) and on [numerical]. *)
Lemma grad_selection_out_of_range_witness :
  compute_grad_constraints x0 sstep (Some [0; 3; 1]) (start analytic)
    = (Raise IndexError, World analytic {[ x0 := xs0 ]} [CallGradConstraint 0 xs0]) /\
  (compute_grad_constraints x0 sstep (Some [0; 3; 1]) (start numerical)).1
    = Raise IndexError /\
  self_ (compute_grad_constraints x0 sstep (Some [0; 3; 1]) (start numerical)).2
    = numerical.
Proof.
  destruct (grad_selection_out_of_range (F := float)) as [Ha Hn].
  split; [|split].
  - apply (Ha x0 xs0 sstep [0] 3 [1] [(0%nat, grad_c_low)] (start analytic)).
    + apply x0_live.
    + vm_compute. lia.
    + left. simpl. eauto.
    + reflexivity.
    + vm_compute. intros [_ Hlt]. discriminate Hlt.
  - rewrite (Hn x0 1%float [2%float] sstep [0; 3; 1] (start numerical)).
    + reflexivity.
    + apply x0_live.
    + reflexivity.
    + apply Exists_cons_tl, Exists_cons_hd. vm_compute. intros [_ Hlt]. discriminate Hlt.
  - rewrite (Hn x0 1%float [2%float] sstep [0; 3; 1] (start numerical)).
    + reflexivity.
    + apply x0_live.
    + reflexivity.
    + apply Exists_cons_tl, Exists_cons_hd. vm_compute. intros [_ Hlt]. discriminate Hlt.
Defined.

(** X8 on [numerical] and on [analytic], selection [[2, 0]]. *)
Lemma jacobian_selection_witness :
  (exists full rows,
     (compute_grad_constraints x0 sstep None (start numerical)).1 = Ok full /\
     (compute_grad_constraints x0 sstep (Some [2; 0]) (start numerical)).1 = Ok rows /\
     mapM (getitem full) [2; 0] = Some rows) /\
  (exists full rows,
     (compute_grad_constraints x0 sstep None (start analytic)).1 = Ok full /\
     (compute_grad_constraints x0 sstep (Some [2; 0]) (start analytic)).1 = Ok rows /\
     mapM (getitem full) [2; 0] = Some rows).
Proof.
  split.
  - destruct (jacobian_selection x0 xs0 sstep [2; 0] (start numerical))
      as (full & rows & w1 & w2 & E1 & E2 & _ & Hm).
    + apply x0_live.
    + vm_compute. lia.
    + repeat constructor; vm_compute; intros Hcmp; discriminate Hcmp.
    + left. reflexivity.
    + exists full, rows. rewrite E1, E2. repeat split. exact Hm.
  - destruct (jacobian_selection x0 xs0 sstep [2; 0] (start analytic))
      as (full & rows & w1 & w2 & E1 & E2 & _ & Hm).
    + apply x0_live.
    + vm_compute. lia.
    + repeat constructor; vm_compute; intros Hcmp; discriminate Hcmp.
    + right. apply (uniform_lengths _ 2). repeat constructor.
    + exists full, rows. rewrite E1, E2. repeat split. exact Hm.
Defined.

(** X9 on [numerical]. *)
Lemma constraints_ordering_witness :
  (compute_constraints x0 None (start numerical)).1
    = Ok [0%float; (-1)%float; (-1)%float] /\
  compute_constraints x0 (Some [0; 1; 2]) (start numerical)
    = compute_constraints x0 None (start numerical).
Proof.
  destruct (constraints_ordering x0 xs0 (start numerical)) as (full & E & -> & _ & Hr).
  - apply x0_live.
  - vm_compute. lia.
  - split; [exact E | exact Hr].
Defined.

(** X10 on [numerical]: two variables, three constraints, twelve calls. *)
Lemma numerical_jacobian_cost_witness :
  exists calls,
    trace (compute_grad_constraints x0 sstep None (start numerical)).2 = calls /\
    length calls = 12%nat.
Proof.
  destruct (numerical_jacobian_cost x0 xs0 sstep None
              [(0%nat, c_low); (1%nat, c_high); (2%nat, c_diag)] (start numerical))
    as (calls & E & L & _).
  - apply x0_live.
  - reflexivity.
  - reflexivity.
  - exists calls. split; [exact E | exact L].
Defined.

(** X13 on [numerical]: two multipliers for three constraints. *)
Lemma lagrange_multipliers_length_witness :
  compute_lagrange_function x0 [0.5%float; 0.25%float] (start numerical) =
  (Raise IndexError,
   World numerical {[ x0 := xs0 ]}
         [CallObjective xs0; CallConstraint 0 xs0; CallConstraint 1 xs0;
          CallConstraint 2 xs0]).
Proof.
  exact (lagrange_multipliers_length x0 xs0 [0.5%float; 0.25%float] (start numerical)
           (x0_live numerical)).
Defined.

(** X14 on [analytic] with one multiplier and on [numerical] with two. *)
Lemma grad_lagrange_multipliers_length_witness :
  is_ok (compute_grad_lagrange_function x0 [0.5%float] (start analytic)).1 = false /\
  (compute_grad_lagrange_function x0 [0.5%float; 0.25%float] (start numerical)).1
    = Raise IndexError /\
  grad_constraints_evaluations
    (self_ (compute_grad_lagrange_function x0 [0.5%float; 0.25%float] (start numerical)).2)
    = 1.
Proof.
  destruct (grad_lagrange_multipliers_length (F := float)) as [Ha Hn].
  split.
  - apply Ha. vm_compute. lia.
  - destruct (Hn x0 xs0 [0.5%float; 0.25%float] (start numerical)) as (w' & E & Hs & _).
    + apply x0_live.
    + reflexivity.
    + reflexivity.
    + rewrite E. simpl. split; [reflexivity|]. rewrite Hs. reflexivity.
Defined.

(** X15 on [numerical] with an empty design vector and a selection of two
    indices that are out of range for three constraints. *)
Lemma empty_design_vector_witness :
  (compute_grad_objective x0 sstep (World numerical {[ x0 := [] ]} [])).1 = Ok [] /\
  (compute_grad_constraints x0 sstep (Some [7; -9]) (World numerical {[ x0 := [] ]} [])).1
    = Ok [[]; []] /\
  trace (compute_grad_constraints x0 sstep (Some [7; -9])
           (World numerical {[ x0 := [] ]} [])).2 = [].
Proof.
  destruct (empty_design_vector (F := float)) as [Hg HJ].
  split; [|split].
  - rewrite (Hg x0 sstep (World numerical {[ x0 := [] ]} [])); reflexivity.
  - rewrite (HJ x0 sstep (Some [7; -9]) (World numerical {[ x0 := [] ]} [])); reflexivity.
  - rewrite (HJ x0 sstep (Some [7; -9]) (World numerical {[ x0 := [] ]} [])); reflexivity.
Defined.

(** X16 on [analytic] with three multipliers. *)
Lemma grad_lagrange_analytic_witness :
  compute_grad_lagrange_function x0 [0.5%float; 0.25%float; 2%float] (start analytic) =
  (Ok (weighted_rows (grad_sphere xs0) [0.5%float; 0.25%float; 2%float]
         [grad_c_low xs0; grad_c_high xs0; grad_c_diag xs0]),
   World analytic {[ x0 := xs0 ]}
         [CallGradObjective xs0; CallGradConstraint 0 xs0; CallGradConstraint 1 xs0;
          CallGradConstraint 2 xs0]).
Proof.
  apply (grad_lagrange_analytic x0 xs0 [0.5%float; 0.25%float; 2%float]
           (fun xs => New (grad_sphere xs)) (grad_sphere xs0) (start analytic)).
  - apply x0_live.
  - reflexivity.
  - reflexivity.
  - vm_compute. lia.
  - reflexivity.
  - repeat constructor.
  - vm_compute. lia.
Defined.

(** X17 on [numerical] and [diag_objective] at [x = [0.0, 0.0]], whose
    entries the three steps give back. *)
Lemma jacobian_row_is_gradient_witness :
  exists J grad,
    (compute_grad_constraints x0 sstep None
       (World numerical {[ x0 := [0%float; 0%float] ]} [])).1 = Ok J /\
    (compute_grad_objective x0 sstep
       (World diag_objective {[ x0 := [0%float; 0%float] ]} [])).1 = Ok grad /\
    J !! 2%nat = Some grad.
Proof.
  apply (jacobian_row_is_gradient x0 [0%float; 0%float] sstep 2 c_diag
           (World numerical {[ x0 := [0%float; 0%float] ]} [])
           (World diag_objective {[ x0 := [0%float; 0%float] ]} [])).
  - reflexivity.
  - reflexivity.
  - reflexivity.
  - reflexivity.
  - reflexivity.
  - reflexivity.
  - repeat constructor.
  - reflexivity.
Defined.

(** At [x = [1.0, 2.0]] the first entry is not given back
    ([binary64_stepped_back_rounds]), and the Jacobian row of [c_diag]
    differs from its numerical gradient in the second entry. *)
Example jacobian_row_differs_from_gradient :
  (compute_grad_constraints x0 sstep (Some [2]) (start numerical)).1
    = Ok [[0x1.000000001f9ep+0%float; (-0x1.ffffffffc52ap-1)%float]] /\
  (compute_grad_objective x0 sstep (start diag_objective)).1
    = Ok [0x1.000000001f9ep+0%float; (-0x1.000000001f9ep+0)%float].
Proof. split; vm_compute; reflexivity. Qed.

(** X12 on [analytic], whose objective gradient makes its own array, over
    three calls, the Lagrange gradient among them. *)
Lemma arrays_over_calls_witness :
  heap (session.perform_all
          [session.ComputeGradObjective x0 sstep;
           session.ComputeGradLagrangeFunction x0 [0.5%float; 0.25%float; 2%float];
           session.ComputeGradConstraints x0 sstep (Some [7])]
          (start analytic)) !! x0 = Some xs0.
Proof.
  eapply lookup_weaken; [apply x0_live|].
  apply arrays_over_calls. left. intros xs. simpl. eauto.
Defined.

(** On [aliased], whose objective gradient hands back [x] itself, line 277
    adds into [x]: the call returns [x + 0.5 * grad_c_low(x)] and the
    caller's array now holds it. *)
Example grad_lagrange_overwrites_argument :
  compute_grad_lagrange_function x0 [0.5%float] (start aliased) =
  (Ok [0.5%float; 2%float],
   World aliased {[ x0 := [0.5%float; 2%float] ]}
         [CallGradObjective xs0; CallGradConstraint 0 xs0]).
Proof. vm_compute. reflexivity. Qed.

(** A zero step: between Python floats line 141 raises; when the objective
    returns [numpy.float64] values the quotients are [nan]. *)
Example zero_step_gradient :
  (compute_grad_objective x0 0%float (start numerical)).1 = Raise ZeroDivisionError /\
  (@compute_grad_objective float numpy_float64 x0 0%float (start numerical)).1
    = Ok [PrimFloat.nan; PrimFloat.nan].
Proof. split; vm_compute; reflexivity. Qed.

End Samples.
